(** * dep-ts/command: the token parser, the declaration validator and the
      dispatch runner, embedded from the TypeScript sources.

    Strings are Rocq [string]s read as sequences of ASCII code units: the
    whitespace of [trim], the line terminators excluded by the regular
    expression [.], and [toUpperCase] are modelled on the ASCII range, which
    is the range the flag and name grammars accept.

    The objects [args] and [options] of a result are finite maps from keys
    to values; a key may be present with the value [undefined], and reading
    an absent key gives [undefined].  The maps hold own properties: the
    members that a JavaScript object inherits from [Object.prototype] are
    not in them, and the properties that depend on a read or a write of a
    declared key are stated for declarations none of whose keys names such a
    member ([ownKeysOnly]).

    A thrown [CommandError] is the [Throws] outcome of a call.  The [while]
    loop of [parseRuntime] is a recursion on fuel; [parseRuntime] gives it
    one unit per token, which the section on termination shows to be
    enough. *)

From Stdlib Require Import Ascii String.
From Stdlib Require Import ZArith.
From stdpp Require Import base option list gmap strings.

Local Open Scope string_scope.
Local Open Scope list_scope.

(** ** JavaScript values that the parser stores in its result objects *)

Inductive JsValue :=
| JUndefined
| JBool (b : bool)
| JString (s : string)
| JArray (l : list string).

#[global] Instance JsValue_eq_dec : EqDecision JsValue.
Proof. solve_decision. Defined.

(** [!v] is [negb (truthy v)]: [undefined], [false] and the empty string are
    falsy; every array, also the empty one, is truthy. *)
Definition truthy (v : JsValue) : bool :=
  match v with
  | JUndefined => false
  | JBool b => b
  | JString s => negb (bool_decide (s = ""))
  | JArray _ => true
  end.

Definition truthyString (s : string) : bool := negb (bool_decide (s = "")).

(** ** String helpers (src/helpers/utils.ts) *)

Module Str.

Definition code (c : ascii) : nat := nat_of_ascii c.

(** White space removed by [String.prototype.trim], ASCII range. *)
Definition isSpace (c : ascii) : bool :=
  let n := code c in
  (Nat.leb 9 n && Nat.leb n 13) || Nat.eqb n 32.

(** Characters that the regular expression [.] does not match. *)
Definition isLineTerminator (c : ascii) : bool :=
  let n := code c in Nat.eqb n 10 || Nat.eqb n 13.

Definition isLetter (c : ascii) : bool :=
  let n := code c in
  (Nat.leb 65 n && Nat.leb n 90) || (Nat.leb 97 n && Nat.leb n 122).

Definition isDigit (c : ascii) : bool :=
  let n := code c in Nat.leb 48 n && Nat.leb n 57.

Definition isDash (c : ascii) : bool := Nat.eqb (code c) 45.
Definition isUnderscore (c : ascii) : bool := Nat.eqb (code c) 95.
Definition isEquals (c : ascii) : bool := Nat.eqb (code c) 61.

(** [c.toUpperCase()] on one ASCII character. *)
Definition toUpper (c : ascii) : ascii :=
  let n := code c in
  if Nat.leb 97 n && Nat.leb n 122 then ascii_of_nat (n - 32) else c.

Fixpoint trimStart (s : string) : string :=
  match s with
  | String c s' => if isSpace c then trimStart s' else s
  | EmptyString => EmptyString
  end.

Fixpoint trimEnd (s : string) : string :=
  match s with
  | EmptyString => EmptyString
  | String c s' =>
      match trimEnd s' with
      | EmptyString => if isSpace c then EmptyString else String c EmptyString
      | r => String c r
      end
  end.

Definition trim (s : string) : string := trimEnd (trimStart s).

Definition startsWithDash (s : string) : bool :=
  match s with
  | String c _ => isDash c
  | EmptyString => false
  end.

(** [s.includes(sub)] *)
Fixpoint includes (s sub : string) : bool :=
  if String.prefix sub s then true
  else match s with
       | EmptyString => false
       | String _ s' => includes s' sub
       end.

Fixpoint hasChar (p : ascii -> bool) (s : string) : bool :=
  match s with
  | EmptyString => false
  | String c s' => p c || hasChar p s'
  end.

Fixpoint all (p : ascii -> bool) (s : string) : bool :=
  match s with
  | EmptyString => true
  | String c s' => p c && all p s'
  end.

(** [s.split(sep)] for a one-character separator. *)
Fixpoint split (sep : ascii -> bool) (s : string) : list string :=
  match s with
  | EmptyString => [EmptyString]
  | String c s' =>
      if sep c then EmptyString :: split sep s'
      else match split sep s' with
           | h :: t => String c h :: t
           | [] => [String c EmptyString]
           end
  end.

(** [s.replace(/^-+/, '')] *)
Fixpoint stripLeadingDashes (s : string) : string :=
  match s with
  | String c s' => if isDash c then stripLeadingDashes s' else s
  | EmptyString => EmptyString
  end.

(** [s.replace(/-./g, m => m.charAt(1).toUpperCase())]: the scan is left to
    right and a match consumes both characters. *)
Fixpoint upperAfterDash (s : string) : string :=
  match s with
  | EmptyString => EmptyString
  | String c s' =>
      if isDash c then
        match s' with
        | EmptyString => String c EmptyString
        | String d s'' =>
            if isLineTerminator d then String c (upperAfterDash s')
            else String (toUpper d) (upperAfterDash s'')
        end
      else String c (upperAfterDash s')
  end.

(** [s.replaceAll('-', '')] *)
Fixpoint removeDashes (s : string) : string :=
  match s with
  | EmptyString => EmptyString
  | String c s' => if isDash c then removeDashes s' else String c (removeDashes s')
  end.

End Str.

Definition isFlag (token : string) : bool := Str.startsWithDash token.

Definition isInlineOption (token : string) : bool := Str.hasChar Str.isEquals token.

Definition isOption (token : string) : bool := isFlag token || isInlineOption token.

Definition kebabToCamelCase (token : string) : string :=
  Str.removeDashes (Str.upperAfterDash (Str.stripLeadingDashes (Str.trim token))).

(** ** Declarations (src/core/types.ts) *)

Inductive CommandOptionKind := OFlag | OValue | OInline | OVariadic.
Inductive CommandArgumentKind := AValue | AVariadic.

#[global] Instance CommandOptionKind_eq_dec : EqDecision CommandOptionKind.
Proof. solve_decision. Defined.
#[global] Instance CommandArgumentKind_eq_dec : EqDecision CommandArgumentKind.
Proof. solve_decision. Defined.

(** [default?: string | string[]] *)
Inductive Default := DString (s : string) | DArray (l : list string).

#[global] Instance Default_eq_dec : EqDecision Default.
Proof. solve_decision. Defined.

Definition defaultToJs (d : Default) : JsValue :=
  match d with
  | DString s => JString s
  | DArray l => JArray l
  end.

(** An absent property reads as [undefined]. *)
Definition optDefaultToJs (d : option Default) : JsValue :=
  from_option defaultToJs JUndefined d.

(** [if (x.default)] *)
Definition hasDefault (d : option Default) : bool := truthy (optDefaultToJs d).

Definition isArrayDefault (d : option Default) : bool :=
  match d with
  | Some (DArray _) => true
  | _ => false
  end.

Record CommandOption := mkOption {
  longFlag : string;
  opt_kind : CommandOptionKind;
  shortFlag : option string;
  opt_default : option Default;
  opt_choices : option (list string);
  opt_optional : bool
}.

Record CommandArgument := mkArgument {
  arg_name : string;
  arg_kind : CommandArgumentKind;
  arg_default : option Default;
  arg_choices : option (list string);
  arg_optional : bool
}.

(** Handlers are user callbacks; the model identifies a handler by a label
    and records what it is called with.  [runner] takes them to read their
    input and return; [runnerWith] lets them change their input and throw. *)
Definition Handler := nat.

Record Hidden := mkHidden { hide_help : bool; hide_version : bool }.

#[local] Unset Elimination Schemes.
Inductive Config := mkConfig {
  name : string;
  version : string;
  hidden : Hidden;
  aliases : list string;
  options : list CommandOption;
  arguments : list CommandArgument;
  handlers : list Handler;
  subcommands : list Config
}.
#[local] Set Elimination Schemes.

(** ** Errors: every failure is one [CommandError]; the constructors stand
    for the message templates and carry the interpolated values. *)

Inductive NameVariant := VCommand | VAlias | VArgument.
Inductive FlagVariant := VLongFlag | VShortFlag.
Inductive FieldVariant := FArgument | FOption.

Inductive CommandError :=
| CommandNameRequired
| NameFormat (variant : NameVariant) (n : string)
| DuplicateAlias (alias : string)
| ArgumentNameRequired
| DuplicateArgumentName (n : string)
| DefaultNotInChoices (variant : FieldVariant) (n : string)
| DefaultOnRequired (variant : FieldVariant) (n : string)
| ArgumentDefaultArray (n : string)
| OptionLongFlagRequired
| InvalidFlag (variant : FlagVariant) (n : string)
| DuplicateLongFlag (n : string)
| DuplicateShortFlag (n : string)
| SubcommandNameRequired
| DuplicateSubcommandName (n : string)
| UnknownOption (token : string)
| UnexpectedOption (token : string)
| UnexpectedArgument (token : option string)
| RequiredOptionMissing (n : string)
| RequiredArgumentMissing (n : string)
| InvalidChoice (variant : FieldVariant) (value : string) (n : string)
    (choices : list string).

(** A call returns, throws, or (for the token loop run with too little
    fuel) is cut off. *)
Inductive Outcome (A : Type) :=
| Returns (a : A)
| Throws (e : CommandError)
| OutOfFuel.

Arguments Returns {A} a.
Arguments Throws {A} e.
Arguments OutOfFuel {A}.

Definition bind {A B} (m : Outcome A) (k : A -> Outcome B) : Outcome B :=
  match m with
  | Returns a => k a
  | Throws e => Throws e
  | OutOfFuel => OutOfFuel
  end.

Notation "x <- m ;; k" := (bind m (fun x => k))
  (at level 100, m at next level, right associativity).
Notation "m ;;; k" := (bind m (fun _ => k))
  (at level 100, right associativity).

(** [if (c) throw e] *)
Definition throwIf (c : bool) (e : CommandError) : Outcome unit :=
  if c then Throws e else Returns tt.

(** ** Declaration validator (src/helpers/validate) *)

Definition nameChar (c : ascii) : bool :=
  Str.isLetter c || Str.isDigit c || Str.isUnderscore c || Str.isDash c.

(** [/^[a-zA-Z][a-zA-Z0-9_-]*$/.test(name)] *)
Definition nameRegex (n : string) : bool :=
  match n with
  | String c r => Str.isLetter c && Str.all nameChar r
  | EmptyString => false
  end.

(** [/^[a-zA-Z-][a-zA-Z0-9_-]*$/.test(name)] *)
Definition flagRegex (n : string) : bool :=
  match n with
  | String c r => (Str.isLetter c || Str.isDash c) && Str.all nameChar r
  | EmptyString => false
  end.

Definition checkNameFormat (n : string) (variant : NameVariant) : Outcome unit :=
  throwIf (negb (nameRegex n)) (NameFormat variant n).

Definition validateName (n : string) : Outcome unit :=
  throwIf (negb (truthyString n)) CommandNameRequired ;;;
  checkNameFormat n VCommand.

Fixpoint validateAliasesFrom (seenAliases : gset string) (als : list string)
  : Outcome unit :=
  match als with
  | [] => Returns tt
  | alias :: rest =>
      checkNameFormat alias VAlias ;;;
      throwIf (bool_decide (alias ∈ seenAliases)) (DuplicateAlias alias) ;;;
      validateAliasesFrom ({[alias]} ∪ seenAliases) rest
  end.

Definition validateAliases (als : list string) : Outcome unit :=
  validateAliasesFrom ∅ als.

(** [Array.isArray(d) ? d : [d]] *)
Definition defaultValues (d : Default) : list string :=
  match d with
  | DArray l => l
  | DString s => [s]
  end.

(** [choices.some((choice) => defaultValues.includes(choice))] *)
Definition someChoiceInDefault (choices : list string) (d : Default) : bool :=
  existsb (fun choice => bool_decide (choice ∈ defaultValues d)) choices.

(** The [if (x.choices && x.default) { ... }] block shared by arguments and
    options. *)
Definition checkDefaultChoices (variant : FieldVariant) (n : string)
    (choices : option (list string)) (d : option Default) : Outcome unit :=
  match choices, d with
  | Some cs, Some dv =>
      if hasDefault d
      then throwIf (negb (someChoiceInDefault cs dv)) (DefaultNotInChoices variant n)
      else Returns tt
  | _, _ => Returns tt
  end.

Definition validateArgument (argNames : gset string) (arg : CommandArgument)
  : Outcome unit :=
  throwIf (negb (truthyString (arg_name arg))) ArgumentNameRequired ;;;
  checkNameFormat (arg_name arg) VArgument ;;;
  throwIf (bool_decide (arg_name arg ∈ argNames)) (DuplicateArgumentName (arg_name arg)) ;;;
  checkDefaultChoices FArgument (arg_name arg) (arg_choices arg) (arg_default arg) ;;;
  throwIf (negb (arg_optional arg) && hasDefault (arg_default arg))
    (DefaultOnRequired FArgument (arg_name arg)) ;;;
  throwIf (negb (bool_decide (arg_kind arg = AVariadic))
           && hasDefault (arg_default arg) && isArrayDefault (arg_default arg))
    (ArgumentDefaultArray (arg_name arg)).

Fixpoint validateArgumentsFrom (argNames : gset string) (args : list CommandArgument)
  : Outcome unit :=
  match args with
  | [] => Returns tt
  | arg :: rest =>
      validateArgument argNames arg ;;;
      validateArgumentsFrom ({[arg_name arg]} ∪ argNames) rest
  end.

Definition validateArguments (args : list CommandArgument) : Outcome unit :=
  validateArgumentsFrom ∅ args.

Definition validateOptionFormat (n : option string) (variant : FlagVariant)
  : Outcome unit :=
  match n with
  | Some s => throwIf (truthyString s && negb (flagRegex s)) (InvalidFlag variant s)
  | None => Returns tt
  end.

Definition truthyShort (s : option string) : bool :=
  from_option truthyString false s.

(** The set of names after one option has been checked: its long flag, and
    its short flag when it has one. *)
Definition optionNamesAfter (optionNames : gset string) (opt : CommandOption)
  : gset string :=
  match shortFlag opt with
  | Some s => if truthyString s then {[s]} ∪ ({[longFlag opt]} ∪ optionNames)
              else {[longFlag opt]} ∪ optionNames
  | None => {[longFlag opt]} ∪ optionNames
  end.

Definition validateOption (optionNames : gset string) (opt : CommandOption)
  : Outcome unit :=
  throwIf (negb (truthyString (longFlag opt))) OptionLongFlagRequired ;;;
  validateOptionFormat (Some (longFlag opt)) VLongFlag ;;;
  validateOptionFormat (shortFlag opt) VShortFlag ;;;
  throwIf (bool_decide (longFlag opt ∈ optionNames)) (DuplicateLongFlag (longFlag opt)) ;;;
  throwIf (truthyShort (shortFlag opt)
           && bool_decide (default "" (shortFlag opt) ∈ ({[longFlag opt]} ∪ optionNames : gset string)))
    (DuplicateShortFlag (default "" (shortFlag opt))) ;;;
  match opt_kind opt with
  | OFlag => Returns tt
  | _ =>
      checkDefaultChoices FOption (longFlag opt) (opt_choices opt) (opt_default opt) ;;;
      throwIf (negb (opt_optional opt) && hasDefault (opt_default opt))
        (DefaultOnRequired FOption (longFlag opt))
  end.

Fixpoint validateOptionsFrom (optionNames : gset string) (opts : list CommandOption)
  : Outcome unit :=
  match opts with
  | [] => Returns tt
  | opt :: rest =>
      validateOption optionNames opt ;;;
      validateOptionsFrom (optionNamesAfter optionNames opt) rest
  end.

Definition validateOptions (opts : list CommandOption) : Outcome unit :=
  validateOptionsFrom ∅ opts.

(** [validateSubcommands], with the validator of one subcommand as a
    parameter: it is [validateConfig], see below. *)
Fixpoint validateSubcommandsFrom (validate : Config -> Outcome unit)
    (subcommandNames : gset string) (subs : list Config) : Outcome unit :=
  match subs with
  | [] => Returns tt
  | subConfig :: rest =>
      throwIf (negb (truthyString (name subConfig))) SubcommandNameRequired ;;;
      throwIf (bool_decide (name subConfig ∈ subcommandNames))
        (DuplicateSubcommandName (name subConfig)) ;;;
      validate subConfig ;;;
      validateSubcommandsFrom validate ({[name subConfig]} ∪ subcommandNames) rest
  end.

Fixpoint validateConfig (config : Config) : Outcome unit :=
  match config with
  | mkConfig n _ _ als opts args _ subs =>
      validateName n ;;;
      validateAliases als ;;;
      validateArguments args ;;;
      validateOptions opts ;;;
      validateSubcommandsFrom validateConfig ∅ subs
  end.

Definition validateSubcommands (subs : list Config) : Outcome unit :=
  validateSubcommandsFrom validateConfig ∅ subs.

(** ** Parse results (src/helpers/parse/index.ts) *)

Record ParseInput := mkInput {
  args : gmap string JsValue;
  opts : gmap string JsValue;
  unparsed : list string
}.

(** [obj[key]]: an absent key reads as [undefined]. *)
Definition jsGet (obj : gmap string JsValue) (key : string) : JsValue :=
  default JUndefined (obj !! key).

Definition emptyInput : ParseInput := mkInput ∅ ∅ [].

Definition setOption (input : ParseInput) (key : string) (v : JsValue) : ParseInput :=
  mkInput (args input) (<[key := v]> (opts input)) (unparsed input).

Definition setArg (input : ParseInput) (key : string) (v : JsValue) : ParseInput :=
  mkInput (<[key := v]> (args input)) (opts input) (unparsed input).

Definition setUnparsed (input : ParseInput) (l : list string) : ParseInput :=
  mkInput (args input) (opts input) l.

(** ** Token classification and the variadic collector (src/helpers/utils.ts) *)

Definition isSubcommand (token : string) (subs : list Config) : bool :=
  existsb (fun cmd => bool_decide (name cmd = token)
                      || bool_decide (token ∈ aliases cmd)) subs.

Fixpoint handlerVariadic (tokens : list string) (subs : list Config) : list string :=
  match tokens with
  | [] => []
  | token :: rest =>
      if isSubcommand token subs || isOption token then []
      else token :: handlerVariadic rest subs
  end.

(** ** Option matcher (parse/option.ts) *)

(** What a matcher hands back: the one-entry object and the token count. *)
Record Parsed := mkParsed {
  entry : string * JsValue;
  consumed : nat
}.

(** The predicate of [optionDefs.find(...)]. *)
Definition matchesOption (flagName : string) (opt : CommandOption) : bool :=
  (truthyString (longFlag opt)
   && (bool_decide (kebabToCamelCase (longFlag opt) = flagName)
       || Str.includes flagName (kebabToCamelCase (longFlag opt) ++ "=")))
  || match shortFlag opt with
     | Some s =>
         truthyString s
         && (bool_decide (kebabToCamelCase s = flagName)
             || Str.includes flagName (kebabToCamelCase s ++ "="))
     | None => false
     end.

(** [tokens.indexOf(token)] *)
Fixpoint indexOf (token : string) (tokens : list string) : Z :=
  match tokens with
  | [] => (-1)%Z
  | t :: rest =>
      if bool_decide (t = token) then 0%Z
      else let i := indexOf token rest in
           if (i <? 0)%Z then (-1)%Z else (i + 1)%Z
  end.

(** [tokens[i]] for [i >= 0] *)
Definition elementAt (tokens : list string) (i : Z) : JsValue :=
  match tokens !! Z.to_nat i with
  | Some t => JString t
  | None => JUndefined
  end.

(** [tokens.slice(i)] for [i >= 0] *)
Definition sliceFrom (tokens : list string) (i : Z) : list string :=
  drop (Z.to_nat i) tokens.

(** The [switch (matchedOption.kind)]: [None] is the initial [null]. *)
Definition optionValueOf (matchedOption : CommandOption) (token : string)
    (tokens : list string) (config : Config) : option JsValue * nat :=
  let flagName := kebabToCamelCase token in
  let index := indexOf token tokens in
  match opt_kind matchedOption with
  | OValue =>
      if isFlag token then (Some (elementAt tokens (index + 1)), 2) else (None, 0)
  | OInline =>
      if isInlineOption flagName
      then (Some (match Str.split Str.isEquals flagName !! 1 with
                  | Some v => JString v
                  | None => JUndefined
                  end), 1)
      else (None, 0)
  | OVariadic =>
      if isFlag token
      then let l := handlerVariadic (sliceFrom tokens (index + 1)) (subcommands config) in
           (Some (JArray l), length l + 1)
      else (None, 0)
  | OFlag =>
      if isFlag token then (Some (JBool true), 1) else (None, 0)
  end.

Definition parseCommandOption (token : string) (tokens : list string)
    (config : Config) : Outcome Parsed :=
  let flagName := kebabToCamelCase token in
  match List.find (matchesOption flagName) (options config) with
  | None => Throws (UnknownOption token)
  | Some matchedOption =>
      match optionValueOf matchedOption token tokens config with
      | (None, _) => Throws (UnexpectedOption token)
      | (Some optionValue, n) =>
          Returns (mkParsed (kebabToCamelCase (longFlag matchedOption), optionValue) n)
      end
  end.

(** ** Positional matcher (src/helpers/parse/argument.ts) *)

Definition parseCommandArgument (tokens : list string) (config : Config)
    (argIndex : nat) : Outcome Parsed :=
  let token := head tokens in
  match arguments config !! argIndex with
  | None => Throws (UnexpectedArgument token)
  | Some argDef =>
      match arg_kind argDef with
      | AValue =>
          Returns (mkParsed (kebabToCamelCase (arg_name argDef),
                             from_option JString JUndefined token) 1)
      | AVariadic =>
          let l := handlerVariadic tokens (subcommands config) in
          Returns (mkParsed (kebabToCamelCase (arg_name argDef), JArray l) (length l))
      end
  end.

(** ** The token loop of [parseRuntime] *)

(** How the [while] loop is left: it runs out of tokens or [break]s
    ([ScanDone]), or returns from [parseRuntime] on help/version
    ([ScanReturn]). *)
Inductive Scan :=
| ScanDone (input : ParseInput)
| ScanReturn (input : ParseInput).

Definition isOneOf (token : string) (l : list string) : bool :=
  bool_decide (token ∈ l).

Fixpoint scanLoop (fuel : nat) (config : Config) (tokens : list string)
    (tokenIndex argIndex : nat) (input : ParseInput) : Outcome Scan :=
  match tokens !! tokenIndex with
  | None => Returns (ScanDone input)
  | Some token =>
      match fuel with
      | O => OutOfFuel
      | S fuel' =>
          if bool_decide (token = "--")
          then Returns (ScanDone (setUnparsed input (drop (tokenIndex + 1) tokens)))
          else if isOption token then
            p <- parseCommandOption token (drop tokenIndex tokens) config ;;
            let input' := setOption input (fst (entry p)) (snd (entry p)) in
            if negb (hide_version (hidden config)) && isOneOf token ["--version"; "-v"]
            then Returns (ScanReturn input')
            else if negb (hide_help (hidden config)) && isOneOf token ["--help"; "-h"]
            then Returns (ScanReturn input')
            else scanLoop fuel' config tokens (tokenIndex + consumed p) argIndex input'
          else if isSubcommand token (subcommands config)
          then Returns (ScanDone (setUnparsed input (drop tokenIndex tokens)))
          else
            p <- parseCommandArgument (drop tokenIndex tokens) config argIndex ;;
            scanLoop fuel' config tokens (tokenIndex + consumed p) (argIndex + 1)
              (setArg input (fst (entry p)) (snd (entry p)))
      end
  end.

(** ** Post-scan checks of [parseRuntime] *)

Definition isEmptyArray (v : JsValue) : bool :=
  match v with
  | JArray [] => true
  | _ => false
  end.

(** [choices.includes(value)] over [valuesToCheck], first miss throws. *)
Fixpoint checkValues (variant : FieldVariant) (n : string) (choices : list string)
    (valuesToCheck : list string) : Outcome unit :=
  match valuesToCheck with
  | [] => Returns tt
  | value :: rest =>
      if bool_decide (value ∈ choices) then checkValues variant n choices rest
      else Throws (InvalidChoice variant value n choices)
  end.

(** A boolean [true] would be checked as the one-element list [[true]],
    which no list of strings includes. *)
Definition validateChoices (variant : FieldVariant) (value : JsValue) (n : string)
    (choices : list string) : Outcome unit :=
  match value with
  | JArray l => checkValues variant n choices l
  | JString s => if truthyString s then checkValues variant n choices [s] else Returns tt
  | JBool true => Throws (InvalidChoice variant "true" n choices)
  | JBool false => Returns tt
  | JUndefined => Returns tt
  end.

Definition isBoolean (v : JsValue) : bool :=
  match v with
  | JBool _ => true
  | _ => false
  end.

(** [if (d) { if (!cur || (Array.isArray(cur) && cur.length === 0)) obj[key] = d }] *)
Definition applyDefault (obj : gmap string JsValue) (key : string)
    (d : option Default) : gmap string JsValue :=
  if hasDefault d
  then if negb (truthy (jsGet obj key)) || isEmptyArray (jsGet obj key)
       then <[key := optDefaultToJs d]> obj
       else obj
  else obj.

(** One iteration of [for (const option of config.options)]. *)
Definition postOption (option : CommandOption) (os : gmap string JsValue)
  : Outcome (gmap string JsValue) :=
  match opt_kind option with
  | OFlag => Returns os
  | _ =>
      let key := kebabToCamelCase (longFlag option) in
      let optionValue := jsGet os key in
      throwIf (negb (truthy (jsGet os key)) && negb (opt_optional option))
        (RequiredOptionMissing (longFlag option)) ;;;
      let os' := applyDefault os key (opt_default option) in
      match opt_choices option with
      | Some choices =>
          (if negb (isBoolean optionValue)
           then validateChoices FOption optionValue (longFlag option) choices
           else Returns tt) ;;;
          Returns os'
      | None => Returns os'
      end
  end.

Fixpoint postOptions (options : list CommandOption) (os : gmap string JsValue)
  : Outcome (gmap string JsValue) :=
  match options with
  | [] => Returns os
  | option :: rest => os' <- postOption option os ;; postOptions rest os'
  end.

(** One iteration of [for (const {...} of config.arguments)]. *)
Definition postArgument (arg : CommandArgument) (ars : gmap string JsValue)
  : Outcome (gmap string JsValue) :=
  let key := kebabToCamelCase (arg_name arg) in
  let argValue := jsGet ars key in
  throwIf (negb (truthy argValue) && negb (arg_optional arg))
    (RequiredArgumentMissing (arg_name arg)) ;;;
  let ars' := applyDefault ars key (arg_default arg) in
  match arg_choices arg with
  | Some choices =>
      validateChoices FArgument argValue (arg_name arg) choices ;;;
      Returns ars'
  | None => Returns ars'
  end.

Fixpoint postArguments (arguments : list CommandArgument) (ars : gmap string JsValue)
  : Outcome (gmap string JsValue) :=
  match arguments with
  | [] => Returns ars
  | arg :: rest => ars' <- postArgument arg ars ;; postArguments rest ars'
  end.

Definition postScan (config : Config) (input : ParseInput) : Outcome ParseInput :=
  os <- postOptions (options config) (opts input) ;;
  ars <- postArguments (arguments config) (args input) ;;
  Returns (mkInput ars os (unparsed input)).

(** [parseRuntime] with the loop cut off after [fuel] iterations. *)
Definition parseRuntimeFuel (fuel : nat) (config : Config) (tokens : list string)
  : Outcome ParseInput :=
  validateConfig config ;;;
  s <- scanLoop fuel config tokens 0 0 emptyInput ;;
  match s with
  | ScanReturn input => Returns input
  | ScanDone input => postScan config input
  end.

(** Every iteration of the loop consumes a token, so one unit of fuel per
    token is enough. *)
Definition parseRuntime (config : Config) (tokens : list string) : Outcome ParseInput :=
  parseRuntimeFuel (length tokens) config tokens.

(** ** Dispatch runner (src/helpers/runner.ts)

    [input] and [commandNames] are module-level constants of runner.ts: one
    object and one array for the whole process.  The model threads them as
    the runner's state.  Handlers are taken to read their input without
    changing it and without throwing. *)

Record RunnerState := mkState {
  acc : ParseInput;
  commandNames : list string
}.

(** The module as it is loaded. *)
Definition initialState : RunnerState := mkState emptyInput [].

Inductive Event :=
| CallHandler (h : Handler) (input : ParseInput)
| ShowHelp (command : string) (names : list string)
| PrintVersion (v : string).

Record Run := mkRun {
  final : RunnerState;
  trace : list Event;
  status : Outcome unit
}.

(** [Object.assign(target, source)] on two arrays copies the indexed
    elements of the source; the target keeps its longer tail. *)
Definition assignArray (source target : list string) : list string :=
  source ++ drop (length source) target.

(** The three [Object.assign] calls of the runner. *)
Definition assignInput (parsed target : ParseInput) : ParseInput :=
  mkInput (args parsed ∪ args target)
          (opts parsed ∪ opts target)
          (assignArray (unparsed parsed) (unparsed target)).

Definition namesSubcommand (subName : string) (cmd : Config) : bool :=
  bool_decide (name cmd = subName) || bool_decide (subName ∈ aliases cmd).

(** [subcommands.find(pred)] followed by the branch on its result, written
    as one recursion so that [runner] can call itself on the command found. *)
Section FindThen.
Context {R : Type} (pred : Config -> bool) (found : Config -> R) (missing : R).

Fixpoint findThen (cmds : list Config) : R :=
  match cmds with
  | [] => missing
  | cmd :: cmds' => if pred cmd then found cmd else findThen cmds'
  end.
End FindThen.

Fixpoint runner (config : Config) (tokens : list string) (st : RunnerState) : Run :=
  match config with
  | mkConfig n v hid _ _ _ hs subs =>
      match parseRuntime config tokens with
      | Throws e => mkRun st [] (Throws e)
      | OutOfFuel => mkRun st [] OutOfFuel
      | Returns parsed =>
          let st1 := mkState (assignInput parsed (acc st)) (commandNames st ++ [n]) in
          if truthy (jsGet (opts parsed) "help") && negb (hide_help hid)
          then mkRun st1 [ShowHelp n (commandNames st1)] (Returns tt)
          else if truthy (jsGet (opts parsed) "version") && negb (hide_version hid)
          then mkRun st1 [PrintVersion v] (Returns tt)
          else
            let calls := (fun h => CallHandler h (acc st1)) <$> hs in
            match unparsed parsed with
            | [] => mkRun st1 calls (Returns tt)
            | subName :: rest =>
                findThen (namesSubcommand subName)
                  (fun subcommand =>
                     let r := runner subcommand rest st1 in
                     mkRun (final r) (calls ++ trace r) (status r))
                  (mkRun st1 calls (Returns tt))
                  subs
            end
      end
  end.

(** The inputs that handlers were called with, in call order. *)
Definition handlerInputs (tr : list Event) : list ParseInput :=
  omap (fun ev => match ev with CallHandler _ input => Some input | _ => None end) tr.

Definition handlerCalls (tr : list Event) : list Handler :=
  omap (fun ev => match ev with CallHandler h _ => Some h | _ => None end) tr.

(** ** Vocabulary of the properties *)

(** The tokens at which the collector stops. *)
Definition stopsVariadic (subs : list Config) (token : string) : bool :=
  isSubcommand token subs || isOption token.

(** [descendant sub c]: [sub] is declared somewhere below [c]. *)
Inductive descendant (sub : Config) : Config -> Prop :=
| descendant_child c : sub ∈ subcommands c -> descendant sub c
| descendant_below c mid :
    mid ∈ subcommands c -> descendant sub mid -> descendant sub c.

Definition optionKey (o : CommandOption) : string := kebabToCamelCase (longFlag o).
Definition argumentKey (a : CommandArgument) : string := kebabToCamelCase (arg_name a).

(** The errors of the post-scan checks. *)
Definition requiredError (config : Config) (e : CommandError) : Prop :=
  (exists o, o ∈ options config /\ e = RequiredOptionMissing (longFlag o))
  \/ (exists a, a ∈ arguments config /\ e = RequiredArgumentMissing (arg_name a)).

Definition choiceError (config : Config) (e : CommandError) : Prop :=
  (exists o cs v, o ∈ options config /\ opt_choices o = Some cs
                  /\ e = InvalidChoice FOption v (longFlag o) cs)
  \/ (exists a cs v, a ∈ arguments config /\ arg_choices a = Some cs
                     /\ e = InvalidChoice FArgument v (arg_name a) cs).

(** A required option (not a flag) whose key holds no value after the
    scan, no option with the same key declaring a default. *)
Definition missingOption (config : Config) (input : ParseInput) (o : CommandOption) : Prop :=
  o ∈ options config
  /\ opt_kind o <> OFlag
  /\ opt_optional o = false
  /\ truthy (jsGet (opts input) (optionKey o)) = false
  /\ Forall (fun o' => optionKey o' = optionKey o -> hasDefault (opt_default o') = false)
       (options config).

Definition missingArgument (config : Config) (input : ParseInput) (a : CommandArgument) : Prop :=
  a ∈ arguments config
  /\ arg_optional a = false
  /\ truthy (jsGet (args input) (argumentKey a)) = false
  /\ Forall (fun a' => argumentKey a' = argumentKey a -> hasDefault (arg_default a') = false)
       (arguments config).

Definition isNonFlag (o : CommandOption) : Prop := opt_kind o <> OFlag.

#[global] Instance isNonFlag_dec o : Decision (isNonFlag o).
Proof. unfold isNonFlag. apply _. Defined.

(** Every value, inline and variadic option with its declared default. *)
Definition optionDefaults (os : list CommandOption) : list (string * JsValue) :=
  (fun o => (optionKey o, optDefaultToJs (opt_default o))) <$> filter isNonFlag os.

Definition argumentDefaults (ars : list CommandArgument) : list (string * JsValue) :=
  (fun a => (argumentKey a, optDefaultToJs (arg_default a))) <$> ars.

Definition optionalWithDefault (optional : bool) (d : option Default) : Prop :=
  optional = true /\ hasDefault d = true.


(** ** Declarations used as instances *)

Module VariadicExample.
Definition push : Config :=
  mkConfig "push" "1.0.0" (mkHidden false false) [] [] [] [] [].
Definition targets : CommandArgument :=
  mkArgument "targets" AVariadic None None false.
Definition cli : Config :=
  mkConfig "cli" "1.0.0" (mkHidden false false) [] [] [targets] [] [push].
End VariadicExample.

Module EagerExample.
Definition file : CommandArgument := mkArgument "file" AValue None None true.
(** A subcommand that declares the argument name file twice. *)
Definition sub : Config :=
  mkConfig "sub" "1.0.0" (mkHidden false false) [] [] [file; file] [] [].
Definition cli : Config :=
  mkConfig "cli" "1.0.0" (mkHidden false false) [] [] [] [0] [sub].
(** The same level with no subcommand declared. *)
Definition alone : Config :=
  mkConfig "cli" "1.0.0" (mkHidden false false) [] [] [] [0] [].
End EagerExample.

Module HelpExample.
Definition help : CommandOption :=
  mkOption "--help" OFlag (Some "-h") None None false.
(** An inline option whose long flag also normalises to help. *)
Definition shadow : CommandOption :=
  mkOption "-help" OInline None None None true.
Definition output : CommandOption :=
  mkOption "--output" OValue (Some "-o") None None false.
Definition input : CommandArgument :=
  mkArgument "input" AValue None None false.
(** Required option and argument, help declared last. *)
Definition cli : Config :=
  mkConfig "cli" "1.0.0" (mkHidden false false) [] [output; help] [input] [0] [].
Definition shadowed : Config :=
  mkConfig "cli" "1.0.0" (mkHidden false false) [] [shadow; help] [] [0] [].
End HelpExample.

Module RequiredExample.
Definition output : CommandOption :=
  mkOption "--output" OValue (Some "-o") None None false.
Definition verbose : CommandOption :=
  mkOption "--verbose" OFlag None None None false.
Definition cli : Config :=
  mkConfig "cli" "1.0.0" (mkHidden false false) [] [verbose; output] [] [0] [].
(** Only a flag option, declared with [optional] false and no default. *)
Definition flagOnly : Config :=
  mkConfig "cli" "1.0.0" (mkHidden false false) [] [verbose] [] [0] [].
End RequiredExample.

Module DefaultsExample.
Definition mode : CommandOption :=
  mkOption "--mode" OValue None (Some (DString "development"))
    (Some ["development"; "production"]) true.
Definition tags : CommandOption :=
  mkOption "--tags" OVariadic None (Some (DArray ["a"; "b"])) None true.
Definition verbose : CommandOption :=
  mkOption "--verbose" OFlag (Some "-V") None None false.
Definition entry : CommandArgument :=
  mkArgument "entry" AValue (Some (DString "main.ts")) None true.
Definition cli : Config :=
  mkConfig "cli" "1.0.0" (mkHidden false false) [] [mode; verbose; tags] [entry] [0] [].

(** Two long flags with one canonical key. *)
Definition kebab : CommandOption :=
  mkOption "--a-b" OValue None (Some (DString "x")) None true.
Definition camel : CommandOption :=
  mkOption "--aB" OValue None (Some (DString "y")) None true.
Definition clash : Config :=
  mkConfig "cli" "1.0.0" (mkHidden false false) [] [kebab; camel] [] [0] [].
End DefaultsExample.

Module RunnerExample.
Definition message : CommandOption :=
  mkOption "--message" OValue (Some "-m") None None false.
Definition commit : Config :=
  mkConfig "commit" "1.0.0" (mkHidden false false) ["c"] [message] [] [1] [].
Definition git : Config :=
  mkConfig "git" "1.0.0" (mkHidden false false) [] [] [] [0] [commit].
Definition tokens : list string := ["c"; "-m"; "msg"].
(** The first invocation in the process, and the one after it. *)
Definition first : Run := runner git tokens initialState.
Definition second : Run := runner git tokens (final first).
End RunnerExample.

Module ValueExample.
Definition output : CommandOption :=
  mkOption "--output" OValue (Some "-o") None None true.
Definition required : CommandOption :=
  mkOption "--output" OValue (Some "-o") None None false.
Definition cli : Config :=
  mkConfig "cli" "1.0.0" (mkHidden false false) [] [output] [] [0] [].
Definition strict : Config :=
  mkConfig "cli" "1.0.0" (mkHidden false false) [] [required] [] [0] [].
End ValueExample.

Module InlineExample.
Definition output : CommandOption :=
  mkOption "--output" OInline None None None true.
Definition cli : Config :=
  mkConfig "cli" "1.0.0" (mkHidden false false) [] [output] [] [0] [].
End InlineExample.

Module ChoicesExample.
(** A variadic argument whose default holds z, which is no choice. *)
Definition tags : CommandArgument :=
  mkArgument "tags" AVariadic (Some (DArray ["a"; "z"])) (Some ["a"; "b"]) true.
Definition env : CommandOption :=
  mkOption "--env" OVariadic None (Some (DArray ["z"; "b"])) (Some ["a"; "b"]) true.
Definition cli : Config :=
  mkConfig "cli" "1.0.0" (mkHidden false false) [] [env] [tags] [0] [].
End ChoicesExample.

Module EnforcedExample.
Definition level : CommandArgument :=
  mkArgument "level" AValue None (Some ["low"; "high"]) true.
Definition mode : CommandOption :=
  mkOption "--mode" OValue (Some "-m") None (Some ["dev"; "prod"]) true.
Definition cli : Config :=
  mkConfig "cli" "1.0.0" (mkHidden false false) [] [mode] [level] [0] [].
End EnforcedExample.

(** ** Builder and [Command.parse] (core/builder.ts, src/core/command.ts)

    The builder keeps the declaration in a private field and every method
    pushes onto it; the methods are modelled as functions from the
    declaration before the call to the declaration after it. *)

(** The optional second argument of [option]: the fields it may override. *)
Record OptionInit := mkOptionInit {
  oi_kind : option CommandOptionKind;
  oi_shortFlag : option string;
  oi_default : option Default;
  oi_choices : option (list string);
  oi_optional : option bool
}.

Record ArgumentInit := mkArgumentInit {
  ai_kind : option CommandArgumentKind;
  ai_default : option Default;
  ai_choices : option (list string);
  ai_optional : option bool
}.

Definition setOptions (config : Config) (os : list CommandOption) : Config :=
  mkConfig (name config) (version config) (hidden config) (aliases config)
    os (arguments config) (handlers config) (subcommands config).

Definition setArguments (config : Config) (ars : list CommandArgument) : Config :=
  mkConfig (name config) (version config) (hidden config) (aliases config)
    (options config) ars (handlers config) (subcommands config).

(** [{ longFlag, kind: 'value', optional: false }] with the fields of
    [config] assigned over it. *)
Definition newOption (flag : string) (init : option OptionInit) : CommandOption :=
  match init with
  | None => mkOption flag OValue None None None false
  | Some i =>
      mkOption flag (default OValue (oi_kind i)) (oi_shortFlag i)
        (oi_default i) (oi_choices i) (default false (oi_optional i))
  end.

Definition newArgument (n : string) (init : option ArgumentInit) : CommandArgument :=
  match init with
  | None => mkArgument n AValue None None false
  | Some i =>
      mkArgument n (default AValue (ai_kind i)) (ai_default i) (ai_choices i)
        (default false (ai_optional i))
  end.

(** [builder.option(longFlag, config)] *)
Definition builderOption (config : Config) (flag : string) (init : option OptionInit)
  : Config :=
  setOptions config (options config ++ [newOption flag init]).

(** [builder.argument(name, config)] *)
Definition builderArgument (config : Config) (n : string) (init : option ArgumentInit)
  : Config :=
  setArguments config (arguments config ++ [newArgument n init]).






(** ** Help formatting (helpers/help.ts) *)

Definition dashDash : string := "--".

(** [flag.startsWith('-') ? flag : flag.length === 1 ? `-${flag}` : `--${flag}`],
    with [=value] or [[=value]] appended for the inline kind. *)
Definition formatOptionFlag (flag : string) (kind : CommandOptionKind) (optional : bool)
  : string :=
  let normalizedFlag :=
    if Str.startsWithDash flag then flag
    else if Nat.eqb (String.length flag) 1 then String.append "-" flag
    else String.append dashDash flag in
  match kind with
  | OInline =>
      if optional then String.append normalizedFlag "[=value]"
      else String.append normalizedFlag "=value"
  | _ => normalizedFlag
  end.

(** ** More vocabulary *)

(** Letters, digits and the underscore: the characters of the name grammars
    other than the hyphen. *)
Definition plainChar (c : ascii) : bool :=
  Str.isLetter c || Str.isDigit c || Str.isUnderscore c.

(** The flags one option puts into the validator's set of names. *)
Definition optionNamesOf (o : CommandOption) : list string :=
  longFlag o ::
  match shortFlag o with
  | Some s => if truthyString s then [s] else []
  | None => []
  end.

(** Every value that the choices check looks at is one of the choices. *)
Definition inChoices (choices : list string) (v : JsValue) : Prop :=
  match v with
  | JArray l => Forall (fun s => s ∈ choices) l
  | JString s => s = "" \/ s ∈ choices
  | JBool b => b = false
  | JUndefined => True
  end.

Definition mapOutcome {A B} (f : A -> B) (m : Outcome A) : Outcome B :=
  bind m (fun a => Returns (f a)).

Definition scanInput (s : Scan) : ParseInput :=
  match s with
  | ScanDone input => input
  | ScanReturn input => input
  end.

(** Every key of the two mappings is the canonical key of a declared
    option, respectively of a declared argument. *)
Definition declaredKeys (config : Config) (input : ParseInput) : Prop :=
  (forall k, is_Some (opts input !! k) ->
     exists o, o ∈ options config /\ k = optionKey o)
  /\ (forall k, is_Some (args input !! k) ->
       exists a, a ∈ arguments config /\ k = argumentKey a).

(** Where a non-empty [unparsed] comes from: the tokens after a separator,
    or the tokens from a subcommand name on. *)
Definition unparsedOrigin (config : Config) (tokens l : list string) : Prop :=
  l = []
  \/ (exists k, tokens !! k = Some "--" /\ l = drop (S k) tokens)
  \/ (exists k t, tokens !! k = Some t
                  /\ isSubcommand t (subcommands config) = true
                  /\ isOption t = false
                  /\ l = drop k tokens).

(** The tokens at which the loop returns at once, after their option has
    been matched. *)
Definition shortCircuitToken (config : Config) (token : string) : bool :=
  (negb (hide_version (hidden config)) && isOneOf token ["--version"; "-v"])
  || (negb (hide_help (hidden config)) && isOneOf token ["--help"; "-h"]).

(** The value under a key is the default of a declared field with that key. *)
Definition isOptionDefault (os : list CommandOption) (key : string) (v : JsValue) : Prop :=
  exists o, o ∈ os /\ opt_kind o <> OFlag /\ optionKey o = key
            /\ hasDefault (opt_default o) = true
            /\ v = optDefaultToJs (opt_default o).

Definition isArgumentDefault (ars : list CommandArgument) (key : string) (v : JsValue)
  : Prop :=
  exists a, a ∈ ars /\ argumentKey a = key
            /\ hasDefault (arg_default a) = true
            /\ v = optDefaultToJs (arg_default a).


(** A default given together with choices shares an element with them. *)
Definition defaultMeetsChoices (choices : option (list string)) (d : option Default)
  : Prop :=
  forall cs dv, choices = Some cs -> d = Some dv -> hasDefault d = true ->
    exists c, c ∈ cs /\ c ∈ defaultValues dv.

(** What [validateArguments] checks on one argument, its name being new. *)
Definition argumentOk (a : CommandArgument) : Prop :=
  nameRegex (arg_name a) = true
  /\ defaultMeetsChoices (arg_choices a) (arg_default a)
  /\ (hasDefault (arg_default a) = true -> arg_optional a = true)
  /\ (hasDefault (arg_default a) = true -> isArrayDefault (arg_default a) = true ->
      arg_kind a = AVariadic).

(** What [validateOptions] checks on one option, its flags being new. *)
Definition optionOk (o : CommandOption) : Prop :=
  flagRegex (longFlag o) = true
  /\ (forall s, shortFlag o = Some s -> truthyString s = true -> flagRegex s = true)
  /\ (opt_kind o <> OFlag ->
      defaultMeetsChoices (opt_choices o) (opt_default o)
      /\ (hasDefault (opt_default o) = true -> opt_optional o = true)).

(** ** Keys that a plain object inherits *)

(** The members of [Object.prototype].  On a result object that has no own
    property of such a name a read finds the inherited member, and an
    assignment to [__proto__] goes through the inherited setter; the finite
    maps of this file hold own properties only. *)
Definition objectPrototypeMembers : list string :=
  [ "constructor"; "__defineGetter__"; "__defineSetter__"; "hasOwnProperty";
    "__lookupGetter__"; "__lookupSetter__"; "isPrototypeOf";
    "propertyIsEnumerable"; "toString"; "valueOf"; "__proto__";
    "toLocaleString" ].

Definition prototypeMember (key : string) : bool :=
  bool_decide (key ∈ objectPrototypeMembers).

(** No option and no argument of the declaration has a canonical key that
    names a member of [Object.prototype]: every read and write that
    [parseRuntime] makes on its result objects then meets own properties
    only, as the finite maps have it. *)
Definition ownKeysOnly (config : Config) : bool :=
  forallb (fun o => negb (prototypeMember (optionKey o))) (options config)
  && forallb (fun a => negb (prototypeMember (argumentKey a))) (arguments config).

(** The same for the declaration and for every subcommand below it. *)
Fixpoint ownKeysTree (config : Config) : bool :=
  match config with
  | mkConfig _ _ _ _ _ _ _ subs => ownKeysOnly config && forallb ownKeysTree subs
  end.

(** ** The runner with the callbacks acting (src/helpers/runner.ts) *)

(** What a callback does is the caller's code.  It is given the accumulator
    object itself and the declaration: it may change the accumulator in
    place and it may throw.  Both results carry the accumulator as the call
    left it; a rejected promise is a throw at the [await]. *)
Inductive HandlerResult :=
| HandlerReturns (input : ParseInput)
| HandlerThrows (input : ParseInput) (exn : string).

Definition Behaviour := Handler -> ParseInput -> Config -> HandlerResult.

(** Callbacks that read their input and return: the ones [runner] assumes. *)
Definition observes : Behaviour := fun _ input _ => HandlerReturns input.

(** How a run ends: it returns, [parseRuntime] throws, a callback throws. *)
Inductive RunStatus :=
| RunReturns
| RunThrows (e : CommandError)
| RunHandlerThrows (h : Handler) (exn : string)
| RunOutOfFuel.

Definition statusOf (out : Outcome unit) : RunStatus :=
  match out with
  | Returns _ => RunReturns
  | Throws e => RunThrows e
  | OutOfFuel => RunOutOfFuel
  end.

Record RunWith := mkRunWith {
  finalWith : RunnerState;
  traceWith : list Event;
  statusWith : RunStatus
}.

(** [for (const handler of handlers) await handler(input, config)]: the
    calls made, the accumulator after the last of them, and the callback
    that threw, if one did. *)
Record Called := mkCalled {
  calledEvents : list Event;
  calledAcc : ParseInput;
  calledThrow : option (Handler * string)
}.

Fixpoint callHandlers (behave : Behaviour) (config : Config) (hs : list Handler)
    (input : ParseInput) : Called :=
  match hs with
  | [] => mkCalled [] input None
  | h :: hs' =>
      match behave h input config with
      | HandlerThrows input' exn => mkCalled [CallHandler h input] input' (Some (h, exn))
      | HandlerReturns input' =>
          let c := callHandlers behave config hs' input' in
          mkCalled (CallHandler h input :: calledEvents c) (calledAcc c) (calledThrow c)
      end
  end.

Fixpoint runnerWith (behave : Behaviour) (config : Config) (tokens : list string)
    (st : RunnerState) : RunWith :=
  match config with
  | mkConfig n v hid _ _ _ hs subs =>
      match parseRuntime config tokens with
      | Throws e => mkRunWith st [] (RunThrows e)
      | OutOfFuel => mkRunWith st [] RunOutOfFuel
      | Returns parsed =>
          let st1 := mkState (assignInput parsed (acc st)) (commandNames st ++ [n]) in
          if truthy (jsGet (opts parsed) "help") && negb (hide_help hid)
          then mkRunWith st1 [ShowHelp n (commandNames st1)] RunReturns
          else if truthy (jsGet (opts parsed) "version") && negb (hide_version hid)
          then mkRunWith st1 [PrintVersion v] RunReturns
          else
            let c := callHandlers behave config hs (acc st1) in
            let st2 := mkState (calledAcc c) (commandNames st1) in
            match calledThrow c with
            | Some (h, exn) => mkRunWith st2 (calledEvents c) (RunHandlerThrows h exn)
            | None =>
                match unparsed parsed with
                | [] => mkRunWith st2 (calledEvents c) RunReturns
                | subName :: rest =>
                    findThen (namesSubcommand subName)
                      (fun subcommand =>
                         let r := runnerWith behave subcommand rest st2 in
                         mkRunWith (finalWith r) (calledEvents c ++ traceWith r)
                                   (statusWith r))
                      (mkRunWith st2 (calledEvents c) RunReturns)
                      subs
                end
            end
      end
  end.

(** ** What a run adds, read off the declaration and the tokens *)

(** The levels that a run goes through, without the accumulator: each
    callback called, paired with the parse results of the levels entered so
    far, the later assigned onto the earlier; the parse results of all the
    levels of the run; and how the run ends. *)
Record Plan := mkPlan {
  planCalls : list (Handler * ParseInput);
  planTotal : ParseInput;
  planStatus : Outcome unit
}.

Fixpoint plan (config : Config) (tokens : list string) : Plan :=
  match config with
  | mkConfig n v hid _ _ _ hs subs =>
      match parseRuntime config tokens with
      | Throws e => mkPlan [] emptyInput (Throws e)
      | OutOfFuel => mkPlan [] emptyInput OutOfFuel
      | Returns parsed =>
          if truthy (jsGet (opts parsed) "help") && negb (hide_help hid)
          then mkPlan [] parsed (Returns tt)
          else if truthy (jsGet (opts parsed) "version") && negb (hide_version hid)
          then mkPlan [] parsed (Returns tt)
          else
            let here := (fun h => (h, parsed)) <$> hs in
            match unparsed parsed with
            | [] => mkPlan here parsed (Returns tt)
            | subName :: rest =>
                findThen (namesSubcommand subName)
                  (fun subcommand =>
                     let below := plan subcommand rest in
                     mkPlan (here ++ (prod_map id (fun overlay => assignInput overlay parsed)
                                        <$> planCalls below))
                            (assignInput (planTotal below) parsed)
                            (planStatus below))
                  (mkPlan here parsed (Returns tt))
                  subs
            end
      end
  end.

Module ThrowingExample.
(** The callback of git throws when it is given a message. *)
Definition behave : Behaviour := fun h input _ =>
  match h, opts input !! "message" with
  | 0, Some _ => HandlerThrows input "unexpected message"
  | _, _ => HandlerReturns input
  end.
Definition first : RunWith := runnerWith behave RunnerExample.git RunnerExample.tokens initialState.
Definition second : RunWith :=
  runnerWith behave RunnerExample.git RunnerExample.tokens (finalWith first).
End ThrowingExample.

(** * Properties *)

(** ** Normalisation on two flags *)

Example kebab_dry_run : kebabToCamelCase "--dry-run" = "dryRun".
Proof. reflexivity. Qed.

Example kebab_inline : kebabToCamelCase "--output=dist/" = "output=dist/".
Proof. reflexivity. Qed.

(** ** Outcomes *)

Section OutcomeFacts.
Context {A B : Type}.

Lemma bind_Returns (m : Outcome A) (k : A -> Outcome B) (b : B) :
  bind m k = Returns b -> exists a, m = Returns a /\ k a = Returns b.
Proof. destruct m; simpl; intros H; try discriminate. eauto. Qed.

Lemma bind_no_fuel (m : Outcome A) (k : A -> Outcome B) :
  m <> OutOfFuel -> (forall a, m = Returns a -> k a <> OutOfFuel) ->
  bind m k <> OutOfFuel.
Proof. destruct m; simpl; intros Hm Hk; [by apply Hk | done | done]. Qed.

End OutcomeFacts.

Lemma throwIf_no_fuel c e : throwIf c e <> OutOfFuel.
Proof. by destruct c. Qed.

Lemma throwIf_Returns c e u : throwIf c e = Returns u -> c = false.
Proof. by destruct c. Qed.

Lemma unit_Returns (m : Outcome unit) u : m = Returns u -> m = Returns tt.
Proof. by destruct u. Qed.

Create HintDb fuel.
#[local] Hint Resolve throwIf_no_fuel : fuel.

Ltac no_fuel :=
  repeat first
    [ apply throwIf_no_fuel
    | apply bind_no_fuel; [| intros ? _]
    | progress (simpl; auto with fuel)
    | discriminate ].

(** Induction on a declaration tree, the subcommands being a nested list. *)
Lemma Config_ind (P : Config -> Prop) :
  (forall n v hid als os ars hs subs,
      Forall P subs -> P (mkConfig n v hid als os ars hs subs)) ->
  forall c, P c.
Proof.
  intros H. fix IH 1. intros [n v hid als os ars hs subs].
  apply H. induction subs as [|s subs IHs]; constructor; [apply IH | exact IHs].
Qed.

(** ** The validator always answers *)

Lemma checkNameFormat_no_fuel n v : checkNameFormat n v <> OutOfFuel.
Proof. apply throwIf_no_fuel. Qed.

Lemma validateName_no_fuel n : validateName n <> OutOfFuel.
Proof. unfold validateName, checkNameFormat. no_fuel. Qed.

Lemma validateAliasesFrom_no_fuel als seen : validateAliasesFrom seen als <> OutOfFuel.
Proof.
  revert seen. induction als as [|a als IH]; intros seen; simpl; [done|].
  unfold checkNameFormat. no_fuel; apply IH.
Qed.

Lemma checkDefaultChoices_no_fuel v n cs d : checkDefaultChoices v n cs d <> OutOfFuel.
Proof.
  unfold checkDefaultChoices. destruct cs, d; try done.
  destruct (hasDefault _); [apply throwIf_no_fuel | done].
Qed.

#[local] Hint Resolve checkNameFormat_no_fuel validateName_no_fuel
  validateAliasesFrom_no_fuel checkDefaultChoices_no_fuel : fuel.

Lemma validateArgumentsFrom_no_fuel ars seen : validateArgumentsFrom seen ars <> OutOfFuel.
Proof.
  revert seen. induction ars as [|a ars IH]; intros seen; simpl; [done|].
  unfold validateArgument. no_fuel; apply IH.
Qed.

Lemma validateOptionFormat_no_fuel n v : validateOptionFormat n v <> OutOfFuel.
Proof. destruct n; simpl; [apply throwIf_no_fuel | done]. Qed.

#[local] Hint Resolve validateOptionFormat_no_fuel : fuel.

Lemma validateOption_no_fuel seen o : validateOption seen o <> OutOfFuel.
Proof.
  unfold validateOption. no_fuel.
  destruct (opt_kind o); no_fuel.
Qed.

Lemma validateOptionsFrom_no_fuel os seen : validateOptionsFrom seen os <> OutOfFuel.
Proof.
  revert seen. induction os as [|o os IH]; intros seen; simpl; [done|].
  apply bind_no_fuel; [apply validateOption_no_fuel | intros _ _; apply IH].
Qed.

Lemma validateSubcommandsFrom_no_fuel validate subs seen :
  Forall (fun c => validate c <> OutOfFuel) subs ->
  validateSubcommandsFrom validate seen subs <> OutOfFuel.
Proof.
  intros Hall. revert seen.
  induction Hall as [|c subs Hc _ IH]; intros seen; simpl; [done|].
  no_fuel; apply IH.
Qed.

Lemma validateConfig_no_fuel config : validateConfig config <> OutOfFuel.
Proof.
  induction config as [n v hid als os ars hs subs IH] using Config_ind.
  simpl. unfold validateAliases, validateArguments, validateOptions.
  apply bind_no_fuel; [apply validateName_no_fuel | intros _ _].
  apply bind_no_fuel; [apply validateAliasesFrom_no_fuel | intros _ _].
  apply bind_no_fuel; [apply validateArgumentsFrom_no_fuel | intros _ _].
  apply bind_no_fuel; [apply validateOptionsFrom_no_fuel | intros _ _].
  by apply validateSubcommandsFrom_no_fuel.
Qed.

(** ** The post-scan checks always answer *)

Lemma checkValues_no_fuel variant n choices vs :
  checkValues variant n choices vs <> OutOfFuel.
Proof. induction vs as [|v vs IH]; simpl; [done|]. by case_bool_decide. Qed.

Lemma validateChoices_no_fuel variant v n choices :
  validateChoices variant v n choices <> OutOfFuel.
Proof.
  destruct v as [|[]|s|l]; cbn [validateChoices]; try done.
  - destruct (truthyString s); [apply checkValues_no_fuel | done].
  - apply checkValues_no_fuel.
Qed.

Lemma postOption_no_fuel o os : postOption o os <> OutOfFuel.
Proof.
  unfold postOption.
  destruct (opt_kind o); try done;
    (apply bind_no_fuel; [apply throwIf_no_fuel | intros _ _];
     destruct (opt_choices o); [|done];
     apply bind_no_fuel; [|done];
     destruct (negb _); [apply validateChoices_no_fuel | done]).
Qed.

Lemma postOptions_no_fuel os m : postOptions os m <> OutOfFuel.
Proof.
  revert m. induction os as [|o os IH]; intros m; simpl; [done|].
  apply bind_no_fuel; [apply postOption_no_fuel | intros m' _; apply IH].
Qed.

Lemma postArgument_no_fuel a m : postArgument a m <> OutOfFuel.
Proof.
  unfold postArgument.
  apply bind_no_fuel; [apply throwIf_no_fuel | intros _ _].
  destruct (arg_choices a); [|done].
  apply bind_no_fuel; [apply validateChoices_no_fuel | done].
Qed.

Lemma postArguments_no_fuel ars m : postArguments ars m <> OutOfFuel.
Proof.
  revert m. induction ars as [|a ars IH]; intros m; simpl; [done|].
  apply bind_no_fuel; [apply postArgument_no_fuel | intros m' _; apply IH].
Qed.

Lemma postScan_no_fuel config input : postScan config input <> OutOfFuel.
Proof.
  unfold postScan.
  apply bind_no_fuel; [apply postOptions_no_fuel | intros os _].
  apply bind_no_fuel; [apply postArguments_no_fuel | done].
Qed.

(** ** Termination of the token loop *)

Lemma parseCommandOption_consumed token tokens config p :
  parseCommandOption token tokens config = Returns p -> 1 <= consumed p.
Proof.
  unfold parseCommandOption.
  destruct (List.find _ _) as [o|]; [|discriminate].
  unfold optionValueOf.
  destruct (opt_kind o);
    [ destruct (isFlag token) | destruct (isFlag token)
    | destruct (isInlineOption _) | destruct (isFlag token) ];
    intros H; inversion H; simpl; lia.
Qed.

Lemma handlerVariadic_cons token rest subs :
  isOption token = false -> isSubcommand token subs = false ->
  handlerVariadic (token :: rest) subs = token :: handlerVariadic rest subs.
Proof. intros Ho Hs. simpl. by rewrite Ho, Hs. Qed.

Lemma parseCommandArgument_consumed token rest config argIndex p :
  isOption token = false -> isSubcommand token (subcommands config) = false ->
  parseCommandArgument (token :: rest) config argIndex = Returns p ->
  1 <= consumed p.
Proof.
  intros Ho Hs. unfold parseCommandArgument.
  destruct (arguments config !! argIndex) as [a|]; [|discriminate].
  destruct (arg_kind a); intros H; inversion H; simpl; [lia|].
  rewrite Ho, Hs. simpl. lia.
Qed.

(** With one unit of fuel per remaining token the loop is never cut off,
    and more fuel does not change its answer. *)
Lemma scanLoop_fuel config tokens :
  forall fuel fuel' tokenIndex argIndex input,
    length tokens - tokenIndex <= fuel ->
    length tokens - tokenIndex <= fuel' ->
    scanLoop fuel config tokens tokenIndex argIndex input <> OutOfFuel
    /\ scanLoop fuel' config tokens tokenIndex argIndex input
       = scanLoop fuel config tokens tokenIndex argIndex input.
Proof.
  induction fuel as [|fuel IH]; intros fuel' ti ai input Hf Hf'.
  - assert (tokens !! ti = None) as Hnone by (apply lookup_ge_None; lia).
    destruct fuel'; simpl; rewrite Hnone; done.
  - destruct (tokens !! ti) as [token|] eqn:Htok.
    + pose proof (lookup_lt_Some _ _ _ Htok) as Hlt.
      destruct fuel' as [|fuel']; [lia|].
      simpl. rewrite Htok.
      case_bool_decide; [done|].
      destruct (isOption token) eqn:Ho.
      * destruct (parseCommandOption _ _ _) as [p| |] eqn:Hp; simpl; try done.
        -- apply parseCommandOption_consumed in Hp.
           destruct (_ && _); [done|]. destruct (_ && _); [done|].
           apply IH; lia.
        -- exfalso. revert Hp. unfold parseCommandOption.
           destruct (List.find _ _); [|done].
           by destruct (optionValueOf _ _ _ _) as [[?|] ?].
      * destruct (isSubcommand token _) eqn:Hs; [done|].
        rewrite (drop_S _ _ _ Htok).
        destruct (parseCommandArgument _ _ _) as [p| |] eqn:Hp; simpl; try done.
        -- apply parseCommandArgument_consumed in Hp; [|done..].
           apply IH; lia.
        -- exfalso. revert Hp. unfold parseCommandArgument.
           destruct (_ !! ai); [|done]. by destruct (arg_kind _).
    + destruct fuel'; simpl; rewrite Htok; done.
Qed.

Lemma parseRuntimeFuel_enough config tokens fuel :
  length tokens <= fuel ->
  parseRuntimeFuel fuel config tokens = parseRuntime config tokens.
Proof.
  intros Hf. unfold parseRuntime, parseRuntimeFuel.
  destruct (scanLoop_fuel config tokens (length tokens) fuel 0 0 emptyInput)
    as [_ ->]; [lia..|done].
Qed.

Lemma parseRuntime_no_fuel config tokens : parseRuntime config tokens <> OutOfFuel.
Proof.
  unfold parseRuntime, parseRuntimeFuel.
  apply bind_no_fuel; [apply validateConfig_no_fuel | intros _ _].
  apply bind_no_fuel.
  - apply (scanLoop_fuel config tokens (length tokens) (length tokens)); lia.
  - intros [input|input] _; [apply postScan_no_fuel | done].
Qed.

(** C10. The parse loop terminates on every finite token list: a matched
    option and a positional match reached from the loop (its first token is
    neither option-shaped nor a subcommand name) consume at least one token,
    so with one unit of fuel per token [parseRuntime] is never cut off, its
    answer (a result or a declared error) does not depend on further fuel. *)
Theorem parseRuntime_total (config : Config) (tokens : list string) :
  parseRuntime config tokens <> OutOfFuel
  /\ (forall fuel, length tokens <= fuel ->
        parseRuntimeFuel fuel config tokens = parseRuntime config tokens)
  /\ (forall token toks p,
        parseCommandOption token toks config = Returns p -> 1 <= consumed p)
  /\ (forall token rest argIndex p,
        isOption token = false ->
        isSubcommand token (subcommands config) = false ->
        parseCommandArgument (token :: rest) config argIndex = Returns p ->
        1 <= consumed p).
Proof.
  split; [apply parseRuntime_no_fuel|].
  split; [intros fuel; apply parseRuntimeFuel_enough|].
  split; [intros token toks p; apply parseCommandOption_consumed|].
  intros token rest argIndex p; apply parseCommandArgument_consumed.
Qed.

(** ** The variadic collector *)

Lemma handlerVariadic_split tokens subs :
  exists rest,
    tokens = handlerVariadic tokens subs ++ rest
    /\ Forall (fun t => stopsVariadic subs t = false) (handlerVariadic tokens subs)
    /\ match rest with
       | [] => True
       | t :: _ => stopsVariadic subs t = true
       end.
Proof.
  induction tokens as [|t tokens (rest & Heq & Hall & Hstop)]; simpl.
  - by exists [].
  - fold (stopsVariadic subs t). destruct (stopsVariadic subs t) eqn:Ht.
    + exists (t :: tokens). split; [done|]. split; [constructor | done].
    + exists rest. split; [simpl; by f_equal|]. split; [by constructor | done].
Qed.

Lemma applyDefault_keeps obj key d k v :
  obj !! k = Some v -> truthy v = true -> isEmptyArray v = false ->
  applyDefault obj key d !! k = Some v.
Proof.
  intros Hk Ht He. unfold applyDefault.
  destruct (hasDefault d); [|done].
  destruct (decide (key = k)) as [->|Hne].
  - unfold jsGet. rewrite Hk. simpl. by rewrite Ht, He.
  - destruct (_ || _); [by rewrite lookup_insert_ne | done].
Qed.

Lemma postArgument_keeps a ars ars' k v :
  postArgument a ars = Returns ars' ->
  ars !! k = Some v -> truthy v = true -> isEmptyArray v = false ->
  ars' !! k = Some v.
Proof.
  unfold postArgument. intros H Hk Ht He.
  apply bind_Returns in H as (_ & _ & H).
  destruct (arg_choices a).
  - apply bind_Returns in H as (_ & _ & H). inversion H.
    by apply applyDefault_keeps.
  - inversion H. by apply applyDefault_keeps.
Qed.

Lemma postArguments_keeps ars m m' k v :
  postArguments ars m = Returns m' ->
  m !! k = Some v -> truthy v = true -> isEmptyArray v = false ->
  m' !! k = Some v.
Proof.
  revert m. induction ars as [|a ars IH]; intros m H Hk Ht He; simpl in H.
  - by simplify_eq.
  - apply bind_Returns in H as (m1 & H1 & H).
    eapply IH; [done| |done..]. by eapply postArgument_keeps.
Qed.

Lemma postScan_unparsed config input r :
  postScan config input = Returns r -> unparsed r = unparsed input.
Proof.
  unfold postScan. intros H.
  apply bind_Returns in H as (os & _ & H).
  apply bind_Returns in H as (ars & _ & H). by inversion H.
Qed.

Lemma postScan_args config input r :
  postScan config input = Returns r ->
  postArguments (arguments config) (args input) = Returns (args r).
Proof.
  unfold postScan. intros H.
  apply bind_Returns in H as (os & _ & H).
  apply bind_Returns in H as (ars & Ha & H). by inversion H.
Qed.

(** C7. The variadic collector returns the longest prefix of the tokens
    that holds no option-shaped token and no subcommand name or alias of the
    current level, and leaves the token it stops at unconsumed.  For the
    tokens build, push, where push is a declared subcommand and the current
    positional argument is variadic, the argument's value is the list
    holding build, one token is consumed and the unparsed tail is push. *)
Theorem variadic_boundary :
  (forall tokens subs,
      exists rest,
        tokens = handlerVariadic tokens subs ++ rest
        /\ Forall (fun t => isSubcommand t subs = false /\ isOption t = false)
             (handlerVariadic tokens subs)
        /\ (rest = [] \/
            exists t rest', rest = t :: rest'
              /\ (isSubcommand t subs = true \/ isOption t = true)))
  /\ (forall config a,
        validateConfig config = Returns tt ->
        arguments config !! 0 = Some a ->
        arg_kind a = AVariadic ->
        isSubcommand "push" (subcommands config) = true ->
        isSubcommand "build" (subcommands config) = false ->
        let key := kebabToCamelCase (arg_name a) in
        parseCommandArgument ["build"; "push"] config 0
          = Returns (mkParsed (key, JArray ["build"]) 1)
        /\ parseRuntime config ["build"; "push"]
           = postScan config (mkInput {[ key := JArray ["build"] ]} ∅ ["push"])
        /\ forall r, parseRuntime config ["build"; "push"] = Returns r ->
             args r !! key = Some (JArray ["build"]) /\ unparsed r = ["push"]).
Proof.
  split.
  - intros tokens subs.
    destruct (handlerVariadic_split tokens subs) as (rest & Heq & Hall & Hstop).
    exists rest. split; [done|]. split.
    + eapply Forall_impl; [exact Hall|]. intros t Ht. by apply orb_false_elim in Ht.
    + destruct rest as [|t rest']; [by left|]. right. exists t, rest'.
      split; [done|]. by apply orb_true_iff.
  - intros config a Hvalid Ha Hkind Hpush Hbuild key.
    assert (parseCommandArgument ["build"; "push"] config 0
            = Returns (mkParsed (key, JArray ["build"]) 1)) as Harg.
    { unfold parseCommandArgument. rewrite Ha, Hkind. simpl.
      by rewrite Hbuild, Hpush. }
    assert (parseRuntime config ["build"; "push"]
            = postScan config (mkInput {[ key := JArray ["build"] ]} ∅ ["push"])) as Hrun.
    { unfold parseRuntime, parseRuntimeFuel. rewrite Hvalid. simpl.
      rewrite Hbuild. change (drop 0 ["build"; "push"]) with ["build"; "push"].
      rewrite Harg. simpl. by rewrite Hpush. }
    split; [done|]. split; [done|].
    intros r Hr. rewrite Hrun in Hr. split.
    + eapply postArguments_keeps; [by apply postScan_args in Hr| |done..].
      simpl. apply lookup_singleton_eq.
    + by apply postScan_unparsed in Hr.
Qed.

Lemma variadic_boundary_witness :
  parseRuntime VariadicExample.cli ["build"; "push"]
  = Returns (mkInput {[ "targets" := JArray ["build"] ]} ∅ ["push"]).
Proof.
  destruct (proj2 variadic_boundary VariadicExample.cli VariadicExample.targets)
    as (_ & Hrun & _); [reflexivity..|].
  rewrite Hrun. vm_compute. reflexivity.
Defined.

(** ** Validation reaches the whole declaration tree *)

Lemma validateSubcommandsFrom_each validate seen subs sub :
  validateSubcommandsFrom validate seen subs = Returns tt ->
  sub ∈ subs -> validate sub = Returns tt.
Proof.
  revert seen. induction subs as [|c subs IH]; intros seen H Hin.
  - by apply elem_of_nil in Hin.
  - simpl in H.
    apply bind_Returns in H as (_ & _ & H).
    apply bind_Returns in H as (_ & _ & H).
    apply bind_Returns in H as ([] & Hc & H).
    apply elem_of_cons in Hin as [->|Hin]; [done | by eapply IH].
Qed.

Lemma validateConfig_subcommands config :
  validateConfig config = Returns tt ->
  validateSubcommands (subcommands config) = Returns tt.
Proof.
  destruct config as [n v hid als os ars hs subs]. simpl. intros H.
  apply bind_Returns in H as (_ & _ & H).
  apply bind_Returns in H as (_ & _ & H).
  apply bind_Returns in H as (_ & _ & H).
  by apply bind_Returns in H as (_ & _ & H).
Qed.

Lemma validateConfig_descendant config sub :
  descendant sub config ->
  validateConfig config = Returns tt -> validateConfig sub = Returns tt.
Proof.
  induction 1 as [c Hin | c mid Hin _ IH]; intros Hc.
  - apply validateConfig_subcommands in Hc.
    by eapply validateSubcommandsFrom_each.
  - apply IH. apply validateConfig_subcommands in Hc.
    by eapply validateSubcommandsFrom_each.
Qed.

Lemma parseRuntime_validates config tokens r :
  parseRuntime config tokens = Returns r -> validateConfig config = Returns tt.
Proof.
  unfold parseRuntime, parseRuntimeFuel. intros H.
  by apply bind_Returns in H as ([] & H & _).
Qed.

(** C4, as the code has it.  Validation is eager: [validateConfig] of a
    level validates, through [validateSubcommands], the full declaration of
    every command below it.  So whatever the tokens are, when the
    declaration of some descendant is invalid the parse of the level fails
    with the declaration error that [validateConfig] raises for the level,
    and a parse that returns has every descendant's declaration valid. *)
Theorem validation_is_eager (config sub : Config) (tokens : list string) :
  descendant sub config ->
  validateConfig sub <> Returns tt ->
  (exists e, validateConfig config = Throws e
             /\ parseRuntime config tokens = Throws e)
  /\ (forall r, parseRuntime config tokens <> Returns r).
Proof.
  intros Hdesc Hsub.
  assert (validateConfig config <> Returns tt) as Hc.
  { intros Hc. by apply Hsub, (validateConfig_descendant config). }
  split.
  - pose proof (validateConfig_no_fuel config) as Hf.
    destruct (validateConfig config) as [[]|e|] eqn:Hv; [done| |done].
    exists e. split; [done|].
    unfold parseRuntime, parseRuntimeFuel. by rewrite Hv.
  - intros r Hr. by apply Hc, (parseRuntime_validates config tokens r).
Qed.

Lemma validation_is_eager_witness :
  (exists e, validateConfig EagerExample.cli = Throws e
             /\ parseRuntime EagerExample.cli [] = Throws e)
  /\ (forall r, parseRuntime EagerExample.cli [] <> Returns r).
Proof.
  apply (validation_is_eager EagerExample.cli EagerExample.sub []).
  - apply descendant_child. simpl. apply list_elem_of_here.
  - vm_compute. discriminate.
Defined.

(** The empty token list never reaches the subcommand, its level alone is
    valid, and yet the parse fails on the subcommand's declaration. *)
Lemma lazy_validation_counterexample :
  parseRuntime EagerExample.alone [] = Returns emptyInput
  /\ parseRuntime EagerExample.cli [] = Throws (DuplicateArgumentName "file").
Proof. split; vm_compute; reflexivity. Qed.

(** ** The help short-circuit *)

Lemma parseCommandOption_help config o tokens :
  List.find (matchesOption "help") (options config) = Some o ->
  opt_kind o = OFlag -> longFlag o = "--help" ->
  parseCommandOption "--help" tokens config
  = Returns (mkParsed ("help", JBool true) 1).
Proof.
  intros Hfind Hkind Hlong. unfold parseCommandOption.
  change (kebabToCamelCase "--help") with "help".
  rewrite Hfind. unfold optionValueOf. rewrite Hkind, Hlong. reflexivity.
Qed.

(** C2, as the code has it.  For every command declaration that passes
    validation, in which help is not hidden and the first declared option
    that answers to the token --help is the flag option --help, parsing the
    token list holding only --help returns the partial result (help set to
    true, nothing else) and raises no error: the post-scan checks are not
    run, whatever fields the declaration requires. *)
Theorem help_short_circuit (config : Config) (o : CommandOption) :
  validateConfig config = Returns tt ->
  hide_help (hidden config) = false ->
  List.find (matchesOption "help") (options config) = Some o ->
  opt_kind o = OFlag ->
  longFlag o = "--help" ->
  parseRuntime config ["--help"]
  = Returns (mkInput ∅ {[ "help" := JBool true ]} []).
Proof.
  intros Hvalid Hhide Hfind Hkind Hlong.
  unfold parseRuntime, parseRuntimeFuel. rewrite Hvalid.
  cbn [bind length scanLoop lookup list_lookup].
  change (bool_decide ("--help" = "--")) with false.
  change (isOption "--help") with true. cbn iota.
  rewrite (parseCommandOption_help config o _ Hfind Hkind Hlong).
  cbn [bind entry fst snd].
  change (isOneOf "--help" ["--version"; "-v"]) with false.
  change (isOneOf "--help" ["--help"; "-h"]) with true.
  rewrite Hhide, andb_false_r. cbn.
  reflexivity.
Qed.

(** The required option and the required argument of [HelpExample.cli] are
    both absent: the post-scan checks would have thrown. *)
Lemma help_short_circuit_witness :
  parseRuntime HelpExample.cli ["--help"]
  = Returns (mkInput ∅ {[ "help" := JBool true ]} [])
  /\ postScan HelpExample.cli (mkInput ∅ {[ "help" := JBool true ]} [])
     = Throws (RequiredOptionMissing "--output").
Proof.
  split.
  - apply (help_short_circuit HelpExample.cli HelpExample.help); reflexivity.
  - vm_compute. reflexivity.
Defined.

(** [--help] is a declared flag option and help is not hidden, the
    declaration passes validation, and yet the parse of the token --help
    throws: the inline option declared first answers to the token. *)
Lemma help_short_circuit_counterexample :
  validateConfig HelpExample.shadowed = Returns tt
  /\ HelpExample.help ∈ options HelpExample.shadowed
  /\ hide_help (hidden HelpExample.shadowed) = false
  /\ parseRuntime HelpExample.shadowed ["--help"] = Throws (UnexpectedOption "--help").
Proof.
  split; [vm_compute; reflexivity|].
  split; [apply list_elem_of_further, list_elem_of_here|].
  split; vm_compute; reflexivity.
Qed.

(** ** Required fields *)

Lemma checkValues_Throws variant n choices vs e :
  checkValues variant n choices vs = Throws e ->
  exists v, e = InvalidChoice variant v n choices.
Proof.
  induction vs as [|v vs IH]; simpl; [done|].
  case_bool_decide; [done|]. intros Hthrow. simplify_eq. eauto.
Qed.

Lemma validateChoices_Throws variant value n choices e :
  validateChoices variant value n choices = Throws e ->
  exists v, e = InvalidChoice variant v n choices.
Proof.
  destruct value as [|[]|s|l]; cbn [validateChoices]; try done.
  - intros H. simplify_eq. eauto.
  - destruct (truthyString s); [apply checkValues_Throws | done].
  - apply checkValues_Throws.
Qed.

Lemma postOption_Throws o m e :
  postOption o m = Throws e ->
  e = RequiredOptionMissing (longFlag o)
  \/ exists cs v, opt_choices o = Some cs /\ e = InvalidChoice FOption v (longFlag o) cs.
Proof.
  unfold postOption.
  destruct (opt_kind o); [done|..];
    (intros Hthrow; destruct (_ && _); simpl in Hthrow; [left; congruence|];
     destruct (opt_choices o) as [cs|]; [|done];
     destruct (negb _); simpl in Hthrow; [|done];
     destruct (validateChoices _ _ _ _) as [|e'|] eqn:Hc; simpl in Hthrow; try done;
     simplify_eq; apply validateChoices_Throws in Hc as [v ->]; right; eauto).
Qed.

(** What one iteration leaves in the options object. *)
Lemma postOption_Returns o m m' :
  postOption o m = Returns m' ->
  m' = m \/ (opt_kind o <> OFlag
             /\ m' = applyDefault m (optionKey o) (opt_default o)).
Proof.
  unfold postOption, optionKey.
  destruct (opt_kind o) eqn:Hk; [intros Hret; left; by simplify_eq|..];
    (intros Hret; right; split; [done|];
     apply bind_Returns in Hret as (_ & _ & Hret);
     destruct (opt_choices o);
       [apply bind_Returns in Hret as (_ & _ & Hret)|]; by simplify_eq).
Qed.

Lemma applyDefault_other obj key d k :
  key <> k -> jsGet (applyDefault obj key d) k = jsGet obj k.
Proof.
  intros Hne. unfold applyDefault.
  destruct (hasDefault d); [|done]. destruct (_ || _); [|done].
  unfold jsGet. by rewrite lookup_insert_ne.
Qed.

Lemma applyDefault_none obj key d : hasDefault d = false -> applyDefault obj key d = obj.
Proof. intros H. unfold applyDefault. by rewrite H. Qed.

Lemma postOptions_Throws os m e :
  postOptions os m = Throws e ->
  exists o, o ∈ os
    /\ (e = RequiredOptionMissing (longFlag o)
        \/ exists cs v, opt_choices o = Some cs /\ e = InvalidChoice FOption v (longFlag o) cs).
Proof.
  revert m. induction os as [|o os IH]; intros m; simpl; [done|].
  destruct (postOption o m) as [m'|e'|] eqn:Ho; simpl; [|intros ?; simplify_eq|done].
  - intros (o' & Hin & He)%IH. exists o'. split; [by apply list_elem_of_further | done].
  - exists o. split; [apply list_elem_of_here | by apply postOption_Throws in Ho].
Qed.

Lemma postOptions_required os m o :
  o ∈ os -> opt_kind o <> OFlag -> opt_optional o = false ->
  truthy (jsGet m (optionKey o)) = false ->
  Forall (fun o' => optionKey o' = optionKey o -> hasDefault (opt_default o') = false) os ->
  exists e, postOptions os m = Throws e.
Proof.
  intros Hin Hkind Hopt. revert m.
  induction os as [|o' os IH]; intros m Hmiss Hall; [by apply elem_of_nil in Hin|].
  apply Forall_cons in Hall as [Ho' Hall]. simpl.
  destruct (postOption o' m) as [m'|e'|] eqn:Hpost; simpl; [|by eauto|].
  - apply elem_of_cons in Hin as [<-|Hin].
    + exfalso. revert Hpost. unfold postOption, optionKey in *.
      rewrite Hmiss, Hopt. by destruct (opt_kind o).
    + apply IH; [done| |done].
      apply postOption_Returns in Hpost as [->|[_ ->]]; [done|].
      destruct (decide (optionKey o' = optionKey o)) as [Heq|Hne].
      * by rewrite applyDefault_none by auto.
      * by rewrite applyDefault_other.
  - by destruct (postOption_no_fuel o' m).
Qed.

Lemma postArgument_Throws a m e :
  postArgument a m = Throws e ->
  e = RequiredArgumentMissing (arg_name a)
  \/ exists cs v, arg_choices a = Some cs /\ e = InvalidChoice FArgument v (arg_name a) cs.
Proof.
  unfold postArgument. intros Hthrow.
  destruct (_ && _); simpl in Hthrow; [left; congruence|].
  destruct (arg_choices a) as [cs|]; [|done].
  destruct (validateChoices _ _ _ _) as [|e'|] eqn:Hc; simpl in Hthrow; try done.
  simplify_eq. apply validateChoices_Throws in Hc as [v ->]. right. eauto.
Qed.

Lemma postArgument_Returns a m m' :
  postArgument a m = Returns m' ->
  m' = applyDefault m (argumentKey a) (arg_default a).
Proof.
  unfold postArgument, argumentKey. intros Hret.
  apply bind_Returns in Hret as (_ & _ & Hret).
  destruct (arg_choices a);
    [apply bind_Returns in Hret as (_ & _ & Hret)|]; by simplify_eq.
Qed.

Lemma postArguments_Throws ars m e :
  postArguments ars m = Throws e ->
  exists a, a ∈ ars
    /\ (e = RequiredArgumentMissing (arg_name a)
        \/ exists cs v, arg_choices a = Some cs
                        /\ e = InvalidChoice FArgument v (arg_name a) cs).
Proof.
  revert m. induction ars as [|a ars IH]; intros m; simpl; [done|].
  destruct (postArgument a m) as [m'|e'|] eqn:Ha; simpl; [|intros ?; simplify_eq|done].
  - intros (a' & Hin & He)%IH. exists a'. split; [by apply list_elem_of_further | done].
  - exists a. split; [apply list_elem_of_here | by apply postArgument_Throws in Ha].
Qed.

Lemma postArguments_required ars m a :
  a ∈ ars -> arg_optional a = false ->
  truthy (jsGet m (argumentKey a)) = false ->
  Forall (fun a' => argumentKey a' = argumentKey a -> hasDefault (arg_default a') = false) ars ->
  exists e, postArguments ars m = Throws e.
Proof.
  intros Hin Hopt. revert m.
  induction ars as [|a' ars IH]; intros m Hmiss Hall; [by apply elem_of_nil in Hin|].
  apply Forall_cons in Hall as [Ha' Hall]. simpl.
  destruct (postArgument a' m) as [m'|e'|] eqn:Hpost; simpl; [|by eauto|].
  - apply elem_of_cons in Hin as [<-|Hin].
    + exfalso. revert Hpost. unfold postArgument, argumentKey in *.
      by rewrite Hmiss, Hopt.
    + apply IH; [done| |done].
      apply postArgument_Returns in Hpost as ->.
      destruct (decide (argumentKey a' = argumentKey a)) as [Heq|Hne].
      * by rewrite applyDefault_none by auto.
      * by rewrite applyDefault_other.
  - by destruct (postArgument_no_fuel a' m).
Qed.

Lemma postScan_Throws config input e :
  postScan config input = Throws e -> requiredError config e \/ choiceError config e.
Proof.
  unfold postScan, requiredError, choiceError.
  destruct (postOptions _ _) as [os|e'|] eqn:Ho; simpl; [|intros ?; simplify_eq|done].
  - destruct (postArguments _ _) as [ars|e'|] eqn:Ha; simpl; [done|intros ?; simplify_eq|done].
    apply postArguments_Throws in Ha as (a & Hin & [->|(cs & v & Hcs & ->)]).
    + left. right. eauto.
    + right. right. eauto 10.
  - apply postOptions_Throws in Ho as (o & Hin & [->|(cs & v & Hcs & ->)]).
    + left. left. eauto.
    + right. left. eauto 10.
Qed.

Lemma postScan_required config input :
  (exists o, missingOption config input o) \/ (exists a, missingArgument config input a) ->
  exists e, postScan config input = Throws e.
Proof.
  unfold postScan. intros [[o (Hin & Hk & Hopt & Hmiss & Hall)]
                          |[a (Hin & Hopt & Hmiss & Hall)]].
  - destruct (postOptions_required _ (opts input) o Hin Hk Hopt Hmiss Hall) as [e ->].
    by exists e.
  - pose proof (postOptions_no_fuel (options config) (opts input)) as Hf.
    destruct (postOptions _ _) as [os|e|]; simpl; [|by eauto|done].
    destruct (postArguments_required _ (args input) a Hin Hopt Hmiss Hall) as [e ->].
    by exists e.
Qed.

(** C3, as the code has it.  The required check is made for value, inline
    and variadic options and for positional arguments, not for flag options,
    and it reads the key of the field on the result object.  For every
    command declaration that passes validation and none of whose canonical
    keys names a member of [Object.prototype]: when the scan of the tokens
    runs to its end (no scan error, no help or version short-circuit) and
    leaves no truthy value under the key of such a field with [optional]
    false, no field with the same key declaring a default, the parse fails
    in the post-scan checks, with a required-field error or with the
    invalid-choice error of a field that declares choices. *)
Theorem required_enforced (config : Config) (tokens : list string) (input : ParseInput) :
  ownKeysOnly config = true ->
  validateConfig config = Returns tt ->
  scanLoop (length tokens) config tokens 0 0 emptyInput = Returns (ScanDone input) ->
  (exists o, missingOption config input o) \/ (exists a, missingArgument config input a) ->
  exists e, parseRuntime config tokens = Throws e
            /\ (requiredError config e \/ choiceError config e).
Proof.
  intros _ Hvalid Hscan Hmiss.
  destruct (postScan_required config input Hmiss) as [e He].
  exists e. split; [|by eapply postScan_Throws].
  unfold parseRuntime, parseRuntimeFuel. rewrite Hvalid, Hscan. exact He.
Qed.

Lemma required_enforced_witness :
  exists e, parseRuntime RequiredExample.cli ["--verbose"] = Throws e
            /\ (requiredError RequiredExample.cli e \/ choiceError RequiredExample.cli e).
Proof.
  apply (required_enforced RequiredExample.cli ["--verbose"]
           (mkInput ∅ {[ "verbose" := JBool true ]} [])).
  - reflexivity.
  - reflexivity.
  - vm_compute. reflexivity.
  - left. exists RequiredExample.output.
    split; [apply list_elem_of_further, list_elem_of_here|].
    split; [discriminate|]. split; [reflexivity|]. split; [vm_compute; reflexivity|].
    repeat constructor.
Defined.

(** A flag option with [optional] false and no default, absent from the
    tokens: the parse returns. *)
Lemma required_flag_counterexample :
  RequiredExample.verbose ∈ options RequiredExample.flagOnly
  /\ opt_optional RequiredExample.verbose = false
  /\ opt_default RequiredExample.verbose = None
  /\ parseRuntime RequiredExample.flagOnly [] = Returns emptyInput.
Proof.
  split; [apply list_elem_of_here|].
  repeat split; vm_compute; reflexivity.
Qed.

(** ** Defaults on the empty token list *)

Lemma applyDefault_fresh obj key d :
  obj !! key = None -> hasDefault d = true ->
  applyDefault obj key d = <[key := optDefaultToJs d]> obj.
Proof. intros Hk Hd. unfold applyDefault, jsGet. by rewrite Hd, Hk. Qed.

Lemma postOption_default o m :
  isNonFlag o -> optionalWithDefault (opt_optional o) (opt_default o) ->
  m !! optionKey o = None ->
  postOption o m = Returns (<[optionKey o := optDefaultToJs (opt_default o)]> m).
Proof.
  intros Hk [Hopt Hd] Hm. unfold postOption. fold (optionKey o).
  rewrite Hopt, (applyDefault_fresh _ _ _ Hm Hd).
  unfold jsGet. rewrite Hm.
  cbn [default from_option id truthy negb andb throwIf bind isBoolean].
  unfold isNonFlag in Hk.
  destruct (opt_kind o); [by destruct Hk|..]; by destruct (opt_choices o).
Qed.

Lemma postOption_flag o m : ~ isNonFlag o -> postOption o m = Returns m.
Proof.
  unfold isNonFlag, postOption. intros Hk.
  destruct (opt_kind o); [done|by destruct Hk..].
Qed.

Lemma postOptions_defaults os m :
  Forall (fun o => isNonFlag o -> optionalWithDefault (opt_optional o) (opt_default o)) os ->
  NoDup (optionDefaults os).*1 ->
  (forall k, k ∈ (optionDefaults os).*1 -> m !! k = None) ->
  postOptions os m = Returns (list_to_map (optionDefaults os) ∪ m).
Proof.
  unfold optionDefaults. intros Hall. revert m.
  induction Hall as [|o os Ho _ IH]; intros m Hnd Hfresh.
  - simpl. by rewrite (left_id_L ∅ (∪)).
  - destruct (decide (isNonFlag o)) as [Hk|Hk].
    + rewrite filter_cons_True in * by done. simpl in *.
      apply NoDup_cons in Hnd as [Hnotin Hnd].
      rewrite (postOption_default o m Hk (Ho Hk)) by (apply Hfresh; left).
      simpl. rewrite IH; [|done|].
      * rewrite <- insert_union_l. f_equal. symmetry. apply insert_union_r.
        by apply not_elem_of_list_to_map_1.
      * intros k Hin. rewrite lookup_insert_ne; [apply Hfresh; by right|].
        intros <-. by apply Hnotin.
    + rewrite filter_cons_False in * by done. simpl.
      rewrite (postOption_flag o m Hk). simpl. by apply IH.
Qed.

Lemma postArgument_default a m :
  optionalWithDefault (arg_optional a) (arg_default a) ->
  m !! argumentKey a = None ->
  postArgument a m = Returns (<[argumentKey a := optDefaultToJs (arg_default a)]> m).
Proof.
  intros [Hopt Hd] Hm. unfold postArgument. fold (argumentKey a).
  rewrite Hopt, (applyDefault_fresh _ _ _ Hm Hd).
  unfold jsGet. rewrite Hm. cbn [default from_option id truthy negb andb throwIf bind].
  by destruct (arg_choices a).
Qed.

Lemma postArguments_defaults ars m :
  Forall (fun a => optionalWithDefault (arg_optional a) (arg_default a)) ars ->
  NoDup (argumentDefaults ars).*1 ->
  (forall k, k ∈ (argumentDefaults ars).*1 -> m !! k = None) ->
  postArguments ars m = Returns (list_to_map (argumentDefaults ars) ∪ m).
Proof.
  unfold argumentDefaults. intros Hall. revert m.
  induction Hall as [|a ars Ha _ IH]; intros m Hnd Hfresh.
  - simpl. by rewrite (left_id_L ∅ (∪)).
  - simpl in *. apply NoDup_cons in Hnd as [Hnotin Hnd].
    rewrite (postArgument_default a m Ha) by (apply Hfresh; left).
    simpl. rewrite IH; [|done|].
    + rewrite <- insert_union_l. f_equal. symmetry. apply insert_union_r.
      by apply not_elem_of_list_to_map_1.
    + intros k Hin. rewrite lookup_insert_ne; [apply Hfresh; by right|].
      intros <-. by apply Hnotin.
Qed.

(** C9, as the code has it.  For every command declaration that passes
    validation, none of whose canonical keys names a member of
    [Object.prototype], and in which every value, inline and variadic option
    and every positional argument has [optional] true and a default (one
    that the code's test [if (x.default)] sees), the canonical keys of these
    options being pairwise distinct and those of the arguments too, parsing
    the empty token list returns the result whose options and args mappings
    assign to every such field exactly its declared default, and hold
    nothing else. *)
Theorem defaults_on_empty (config : Config) :
  ownKeysOnly config = true ->
  validateConfig config = Returns tt ->
  Forall (fun o => isNonFlag o -> optionalWithDefault (opt_optional o) (opt_default o))
    (options config) ->
  Forall (fun a => optionalWithDefault (arg_optional a) (arg_default a))
    (arguments config) ->
  NoDup (optionDefaults (options config)).*1 ->
  NoDup (argumentDefaults (arguments config)).*1 ->
  exists r,
    parseRuntime config [] = Returns r
    /\ opts r = list_to_map (optionDefaults (options config))
    /\ args r = list_to_map (argumentDefaults (arguments config))
    /\ unparsed r = []
    /\ (forall o, o ∈ options config -> isNonFlag o ->
          opts r !! optionKey o = Some (optDefaultToJs (opt_default o)))
    /\ (forall a, a ∈ arguments config ->
          args r !! argumentKey a = Some (optDefaultToJs (arg_default a))).
Proof.
  intros _ Hvalid Hos Hars Hndo Hnda.
  exists (mkInput (list_to_map (argumentDefaults (arguments config)))
                  (list_to_map (optionDefaults (options config))) []).
  split; [|split; [done|split; [done|split; [done|split]]]].
  - unfold parseRuntime, parseRuntimeFuel. rewrite Hvalid. simpl.
    unfold postScan. simpl.
    rewrite (postOptions_defaults _ ∅ Hos Hndo) by (intros; apply lookup_empty).
    rewrite (postArguments_defaults _ ∅ Hars Hnda) by (intros; apply lookup_empty).
    simpl. by rewrite !(right_id_L ∅ (∪)).
  - intros o Hin Hk. simpl. apply elem_of_list_to_map_1; [done|].
    unfold optionDefaults.
    apply (list_elem_of_fmap_2 (fun o => (optionKey o, optDefaultToJs (opt_default o)))).
    by apply list_elem_of_filter.
  - intros a Hin. simpl. apply elem_of_list_to_map_1; [done|].
    unfold argumentDefaults.
    by apply (list_elem_of_fmap_2 (fun a => (argumentKey a, optDefaultToJs (arg_default a)))).
Qed.

Lemma defaults_on_empty_witness :
  exists r,
    parseRuntime DefaultsExample.cli [] = Returns r
    /\ opts r = list_to_map (optionDefaults (options DefaultsExample.cli))
    /\ args r = list_to_map (argumentDefaults (arguments DefaultsExample.cli))
    /\ unparsed r = []
    /\ (forall o, o ∈ options DefaultsExample.cli -> isNonFlag o ->
          opts r !! optionKey o = Some (optDefaultToJs (opt_default o)))
    /\ (forall a, a ∈ arguments DefaultsExample.cli ->
          args r !! argumentKey a = Some (optDefaultToJs (arg_default a))).
Proof.
  apply (defaults_on_empty DefaultsExample.cli).
  - reflexivity.
  - reflexivity.
  - repeat (apply Forall_cons_2;
            [first [by intros _; split | intros Hk; by destruct Hk]|]).
    apply Forall_nil_2.
  - repeat (apply Forall_cons_2; [by split|]). apply Forall_nil_2.
  - apply (bool_decide_unpack _). vm_compute. reflexivity.
  - apply (bool_decide_unpack _). vm_compute. reflexivity.
Defined.

(** Both options are optional with a default and the declaration passes
    validation, but the result gives the key of [--aB] the default of
    [--a-b]. *)
Lemma defaults_on_empty_counterexample :
  validateConfig DefaultsExample.clash = Returns tt
  /\ parseRuntime DefaultsExample.clash []
     = Returns (mkInput ∅ {[ "aB" := JString "x" ]} [])
  /\ optionKey DefaultsExample.camel = "aB"
  /\ optDefaultToJs (opt_default DefaultsExample.camel) = JString "y".
Proof. repeat split; vm_compute; reflexivity. Qed.

(** ** The runner's module-level accumulator *)

Lemma assignArray_assoc a b c :
  assignArray a (assignArray b c) = assignArray (assignArray a b) c.
Proof.
  unfold assignArray.
  rewrite drop_app, drop_drop, length_app, length_drop, <- (assoc_L (++)).
  do 2 f_equal. f_equal. lia.
Qed.

Lemma assignArray_idemp a : assignArray a a = a.
Proof. unfold assignArray. by rewrite drop_all, (right_id_L [] (++)). Qed.

Lemma assignInput_assoc u v w :
  assignInput u (assignInput v w) = assignInput (assignInput u v) w.
Proof.
  unfold assignInput. simpl.
  by rewrite !(assoc_L (∪)), assignArray_assoc.
Qed.

Lemma assignInput_idemp u : assignInput u u = u.
Proof.
  destruct u as [a o l]. unfold assignInput. simpl.
  by rewrite !(idemp_L (∪)), assignArray_idemp.
Qed.

Lemma assignInput_empty w : assignInput emptyInput w = w.
Proof.
  destruct w as [a o l]. unfold assignInput, assignArray. simpl.
  by rewrite !(left_id_L ∅ (∪)).
Qed.



Lemma handlerCalls_app t1 t2 :
  handlerCalls (t1 ++ t2) = handlerCalls t1 ++ handlerCalls t2.
Proof. apply omap_app. Qed.

Lemma handlerInputs_app t1 t2 :
  handlerInputs (t1 ++ t2) = handlerInputs t1 ++ handlerInputs t2.
Proof. apply omap_app. Qed.

Lemma findThen_find {R : Type} pred cmds (found : Config -> R) missing :
  findThen pred found missing cmds
  = match List.find pred cmds with
    | Some cmd => found cmd
    | None => missing
    end.
Proof.
  induction cmds as [|cmd cmds IH]; simpl; [done|]. by destruct (pred cmd).
Qed.

Lemma find_elem_of {A} (p : A -> bool) (l : list A) x :
  List.find p l = Some x -> x ∈ l.
Proof. intros H. apply list_elem_of_In. by apply find_some in H as [? _]. Qed.


Lemma callHandlers_observes config hs input :
  callHandlers observes config hs input
  = mkCalled ((fun h => CallHandler h input) <$> hs) input None.
Proof.
  induction hs as [|h hs IH]; [done|].
  cbn [callHandlers observes]. fold observes. by rewrite IH.
Qed.

Lemma runnerWith_observes config : forall tokens st,
  runnerWith observes config tokens st
  = let r := runner config tokens st in
    mkRunWith (final r) (trace r) (statusOf (status r)).
Proof.
  induction config as [n v hid als os ars hs subs IH] using Config_ind.
  intros tokens st. cbn [runnerWith runner].
  destruct (parseRuntime _ tokens) as [parsed|e|]; [|done|done].
  destruct (truthy (jsGet (opts parsed) "help") && negb (hide_help hid)); [done|].
  destruct (truthy (jsGet (opts parsed) "version") && negb (hide_version hid)); [done|].
  rewrite callHandlers_observes. cbn [calledThrow calledAcc calledEvents acc commandNames].
  destruct (unparsed parsed) as [|subName rest]; [done|].
  rewrite !findThen_find.
  destruct (List.find (namesSubcommand subName) subs) as [cmd|] eqn:Hfind; [|done].
  apply find_elem_of in Hfind.
  by rewrite (proj1 (Forall_forall _ _) IH cmd Hfind rest).
Qed.

Lemma handlerCalls_here (hs : list Handler) parsed target :
  handlerCalls ((fun h => CallHandler h (assignInput parsed target)) <$> hs)
  = ((fun h => (h, parsed)) <$> hs).*1.
Proof. induction hs as [|h hs IH]; [done|]. cbn. by f_equal. Qed.

Lemma handlerInputs_here (hs : list Handler) parsed target :
  handlerInputs ((fun h => CallHandler h (assignInput parsed target)) <$> hs)
  = (fun c : Handler * ParseInput => assignInput c.2 target) <$> ((fun h => (h, parsed)) <$> hs).
Proof. induction hs as [|h hs IH]; [done|]. cbn. by f_equal. Qed.

Lemma runner_plan config : forall tokens st,
  let r := runner config tokens st in
  status r = planStatus (plan config tokens)
  /\ handlerCalls (trace r) = (planCalls (plan config tokens)).*1
  /\ handlerInputs (trace r)
     = (fun c : Handler * ParseInput => assignInput c.2 (acc st)) <$> planCalls (plan config tokens)
  /\ acc (final r) = assignInput (planTotal (plan config tokens)) (acc st).
Proof.
  induction config as [n v hid als os ars hs subs IH] using Config_ind.
  intros tokens st. cbn [runner plan].
  destruct (parseRuntime _ tokens) as [parsed|e|].
  - destruct (truthy (jsGet (opts parsed) "help") && negb (hide_help hid)); [done|].
    destruct (truthy (jsGet (opts parsed) "version") && negb (hide_version hid)); [done|].
    cbn [acc].
    assert (let r := mkRun (mkState (assignInput parsed (acc st)) (commandNames st ++ [n]))
                       ((fun h => CallHandler h (assignInput parsed (acc st))) <$> hs)
                       (Returns tt) in
            let p := mkPlan ((fun h => (h, parsed)) <$> hs) parsed (Returns tt) in
            status r = planStatus p
            /\ handlerCalls (trace r) = (planCalls p).*1
            /\ handlerInputs (trace r)
               = (fun c : Handler * ParseInput => assignInput c.2 (acc st)) <$> planCalls p
            /\ acc (final r) = assignInput (planTotal p) (acc st)) as Hleaf.
    { cbn. by rewrite handlerCalls_here, handlerInputs_here. }
    destruct (unparsed parsed) as [|subName rest]; [exact Hleaf|].
    rewrite !findThen_find.
    destruct (List.find (namesSubcommand subName) subs) as [cmd|] eqn:Hfind;
      [|exact Hleaf].
    apply find_elem_of in Hfind.
    destruct (proj1 (Forall_forall _ _) IH cmd Hfind rest
                (mkState (assignInput parsed (acc st)) (commandNames st ++ [n])))
      as (Hout & Hcalled & Hinputs & Hacc).
    cbn [status trace final acc planStatus planCalls planTotal] in *.
    rewrite handlerCalls_app, handlerInputs_app, handlerCalls_here,
      handlerInputs_here, Hcalled, Hinputs, Hacc, Hout.
    split; [done|]. split; [|split; [|apply assignInput_assoc]].
    + rewrite fmap_app. f_equal. rewrite <- list_fmap_compose.
      apply list_fmap_ext. by intros i [h overlay] _.
    + rewrite fmap_app. f_equal. rewrite <- list_fmap_compose.
      apply list_fmap_ext. intros i [h overlay] _. simpl. apply assignInput_assoc.
  - cbn. by rewrite assignInput_empty.
  - cbn. by rewrite assignInput_empty.
Qed.

(** C8, as the code has it.  The runner keeps one accumulator for the whole
    process and never resets it.  Stated for declarations whose keys, at
    every level, name no member of [Object.prototype].

    Whatever the callbacks do: at a level that parses without asking for
    help or version, the first callback is passed the accumulator that
    everything before it left, with the parse result of the level assigned
    onto it; when that callback throws, the run ends there with its
    exception, no other callback is called and no subcommand is entered.

    When the callbacks read their input and return: the run ends as the
    declaration and the tokens decide, it calls the callbacks that they
    decide, and the input passed to each callback is the accumulator that
    the earlier invocations left with the parse results of the levels
    entered so far assigned onto it; the run leaves the accumulator with the
    parse results of all its levels assigned onto it.  A second run of the
    same declaration on the same tokens then ends the same way, calls the
    same callbacks and leaves the accumulator as the first run left it,
    while each of its callbacks is passed the parse results of its levels
    assigned onto what the whole first run left. *)
Theorem runner_accumulator_overlay (config : Config) (tokens : list string) :
  ownKeysTree config = true ->
  (forall behave st parsed h hs,
     parseRuntime config tokens = Returns parsed ->
     truthy (jsGet (opts parsed) "help") && negb (hide_help (hidden config)) = false ->
     truthy (jsGet (opts parsed) "version") && negb (hide_version (hidden config)) = false ->
     handlers config = h :: hs ->
     let given := assignInput parsed (acc st) in
     (exists later,
        traceWith (runnerWith behave config tokens st) = CallHandler h given :: later)
     /\ (forall left exn,
           behave h given config = HandlerThrows left exn ->
           runnerWith behave config tokens st
           = mkRunWith (mkState left (commandNames st ++ [name config]))
                       [CallHandler h given] (RunHandlerThrows h exn)))
  /\ (forall st,
        let r := runnerWith observes config tokens st in
        statusWith r = statusOf (planStatus (plan config tokens))
        /\ handlerCalls (traceWith r) = (planCalls (plan config tokens)).*1
        /\ handlerInputs (traceWith r)
           = (fun c : Handler * ParseInput => assignInput c.2 (acc st))
               <$> planCalls (plan config tokens)
        /\ acc (finalWith r) = assignInput (planTotal (plan config tokens)) (acc st))
  /\ (forall st,
        let first := runnerWith observes config tokens st in
        let second := runnerWith observes config tokens (finalWith first) in
        statusWith second = statusWith first
        /\ handlerCalls (traceWith second) = handlerCalls (traceWith first)
        /\ acc (finalWith second) = acc (finalWith first)
        /\ handlerInputs (traceWith second)
           = (fun c : Handler * ParseInput =>
                assignInput c.2 (assignInput (planTotal (plan config tokens)) (acc st)))
               <$> planCalls (plan config tokens)).
Proof.
  intros _. split; [|split].
  - intros behave st parsed h hs Hparse Hhelp Hversion Hhs given.
    destruct config as [n v hid als os ars hs0 subs].
    cbn [hidden handlers name] in *. subst hs0.
    cbn [runnerWith]. rewrite Hparse, Hhelp, Hversion.
    cbn [callHandlers acc]. fold given.
    destruct (behave h given _) as [input'|input' exn0] eqn:Hbehave.
    + split; [|discriminate].
      cbn [calledThrow calledAcc calledEvents commandNames].
      destruct (calledThrow _) as [[h' exn']|]; [by eexists|].
      destruct (unparsed parsed) as [|subName rest]; [by eexists|].
      rewrite findThen_find.
      destruct (List.find _ subs); by eexists.
    + cbn [calledThrow calledAcc calledEvents commandNames].
      split; [by eexists|]. intros left exn [= <- <-]. done.
  - intros st r. subst r. rewrite runnerWith_observes.
    cbn [statusWith traceWith finalWith].
    destruct (runner_plan config tokens st) as (-> & ? & ? & ?). done.
  - intros st first second. subst first second. rewrite !runnerWith_observes.
    cbn [statusWith traceWith finalWith].
    destruct (runner_plan config tokens st) as (Hout1 & Hcalled1 & _ & Hacc1).
    destruct (runner_plan config tokens (final (runner config tokens st)))
      as (Hout2 & Hcalled2 & Hinputs2 & Hacc2).
    rewrite Hout2, Hout1, Hcalled2, Hcalled1, Hinputs2, Hacc2, Hacc1.
    by rewrite assignInput_assoc, assignInput_idemp.
Qed.

Lemma runner_accumulator_overlay_witness :
  handlerInputs (traceWith (runnerWith observes RunnerExample.git RunnerExample.tokens
                              (finalWith (runnerWith observes RunnerExample.git
                                            RunnerExample.tokens initialState))))
  = [ mkInput ∅ {[ "message" := JString "msg" ]} ["c"; "-m"; "msg"];
      mkInput ∅ {[ "message" := JString "msg" ]} ["c"; "-m"; "msg"] ].
Proof.
  destruct (runner_accumulator_overlay RunnerExample.git RunnerExample.tokens)
    as (_ & _ & Hagain); [reflexivity|].
  destruct (Hagain initialState) as (_ & _ & _ & ->).
  vm_compute. reflexivity.
Defined.

(** Same declaration, same tokens: in the first run the handler of git is
    passed no options, in the second run it is passed the message that the
    first run's commit level stored. *)
Lemma runner_independence_counterexample :
  handlerInputs (trace RunnerExample.first)
  = [ mkInput ∅ ∅ ["c"; "-m"; "msg"];
      mkInput ∅ {[ "message" := JString "msg" ]} ["c"; "-m"; "msg"] ]
  /\ handlerInputs (trace RunnerExample.second)
     = [ mkInput ∅ {[ "message" := JString "msg" ]} ["c"; "-m"; "msg"];
         mkInput ∅ {[ "message" := JString "msg" ]} ["c"; "-m"; "msg"] ]
  /\ handlerInputs (trace RunnerExample.second)
     <> handlerInputs (trace RunnerExample.first).
Proof.
  assert (handlerInputs (trace RunnerExample.first)
          = [ mkInput ∅ ∅ ["c"; "-m"; "msg"];
              mkInput ∅ {[ "message" := JString "msg" ]} ["c"; "-m"; "msg"] ]) as H1
    by (vm_compute; reflexivity).
  assert (handlerInputs (trace RunnerExample.second)
          = [ mkInput ∅ {[ "message" := JString "msg" ]} ["c"; "-m"; "msg"];
              mkInput ∅ {[ "message" := JString "msg" ]} ["c"; "-m"; "msg"] ]) as H2
    by (vm_compute; reflexivity).
  split; [exact H1|]. split; [exact H2|].
  rewrite H1, H2. intros Heq.
  apply (f_equal (fun l => (fun i => opts i !! "message") <$> head l)) in Heq.
  vm_compute in Heq. discriminate.
Qed.

(** A callback that throws when it is given a message: the first run ends
    normally, the second run of the same declaration on the same tokens ends
    with the exception, at the first callback. *)
Lemma runner_throwing_handler_example :
  statusWith ThrowingExample.first = RunReturns
  /\ handlerCalls (traceWith ThrowingExample.first) = [0; 1]
  /\ statusWith ThrowingExample.second = RunHandlerThrows 0 "unexpected message"
  /\ handlerCalls (traceWith ThrowingExample.second) = [0].
Proof. repeat split; vm_compute; reflexivity. Qed.

(** ** A value option as the last token *)

(** For a value option reached by a flag token, the value is the element
    after the token; past the end of the list that is [undefined], which is
    not the [null] that the matcher tests for. *)
Lemma parseCommandOption_value_last config o token :
  List.find (matchesOption (kebabToCamelCase token)) (options config) = Some o ->
  opt_kind o = OValue -> isFlag token = true ->
  parseCommandOption token [token] config
  = Returns (mkParsed (optionKey o, JUndefined) 2).
Proof.
  intros Hfind Hkind Hflag. unfold parseCommandOption, optionValueOf.
  rewrite Hfind, Hkind, Hflag. simpl. by rewrite bool_decide_true.
Qed.

(** C1, what the code does.  With the value option [--output] declared and
    the token list ending in [--output], the matcher returns the value
    [undefined] and the count 2 and throws nothing.  When the option is
    optional the parse returns a result holding [undefined] under the key
    output; when it is required the parse fails with the required-option
    error, not with the unexpected-option error. *)
Theorem value_flag_last_token :
  parseCommandOption "--output" ["--output"] ValueExample.cli
  = Returns (mkParsed ("output", JUndefined) 2)
  /\ parseRuntime ValueExample.cli ["--output"]
     = Returns (mkInput ∅ {[ "output" := JUndefined ]} [])
  /\ parseRuntime ValueExample.strict ["--output"]
     = Throws (RequiredOptionMissing "--output").
Proof.
  split; [apply (parseCommandOption_value_last _ ValueExample.output); reflexivity|].
  split; vm_compute; reflexivity.
Qed.

(** ** Inline values *)

(** The inline value is cut out of the normalised token. *)
Lemma parseCommandOption_inline config o token tokens :
  List.find (matchesOption (kebabToCamelCase token)) (options config) = Some o ->
  opt_kind o = OInline -> isInlineOption (kebabToCamelCase token) = true ->
  parseCommandOption token tokens config
  = Returns (mkParsed (optionKey o,
                       match Str.split Str.isEquals (kebabToCamelCase token) !! 1 with
                       | Some v => JString v
                       | None => JUndefined
                       end) 1).
Proof.
  intros Hfind Hkind Hinline. unfold parseCommandOption, optionValueOf.
  by rewrite Hfind, Hkind, Hinline.
Qed.

(** C5, what the code does.  The token [--output=dist/] parses to the value
    dist/ and consumes one token.  But the value is taken from the token
    after [kebabToCamelCase], and it is the second piece of a split at every
    [=]: a hyphen in the value is removed and the next letter put in upper
    case, and the value stops at a second [=]. *)
Theorem inline_value_from_normalised_token :
  parseRuntime InlineExample.cli ["--output=dist/"]
  = Returns (mkInput ∅ {[ "output" := JString "dist/" ]} [])
  /\ parseCommandOption "--output=dist/" ["--output=dist/"] InlineExample.cli
     = Returns (mkParsed ("output", JString "dist/") 1)
  /\ parseRuntime InlineExample.cli ["--output=my-dir"]
     = Returns (mkInput ∅ {[ "output" := JString "myDir" ]} [])
  /\ parseRuntime InlineExample.cli ["--output=a=b"]
     = Returns (mkInput ∅ {[ "output" := JString "a" ]} []).
Proof. repeat split; vm_compute; reflexivity. Qed.

(** ** Defaults against choices in the declaration validator *)

(** The check passes as soon as one choice occurs among the defaults. *)
Lemma checkDefaultChoices_passes variant n choices d :
  hasDefault (Some d) = true ->
  checkDefaultChoices variant n (Some choices) (Some d) = Returns tt
  <-> exists choice, choice ∈ choices /\ choice ∈ defaultValues d.
Proof.
  intros Hd. unfold checkDefaultChoices, someChoiceInDefault. rewrite Hd.
  destruct (existsb _ choices) eqn:Hex; simpl.
  - split; [intros _|done].
    apply existsb_exists in Hex as (choice & Hin & Hdec).
    exists choice. split; [by apply list_elem_of_In | by apply bool_decide_eq_true in Hdec].
  - split; [done|]. intros (choice & Hin & Hdef). exfalso.
    assert (existsb (fun choice => bool_decide (choice ∈ defaultValues d)) choices = true)
      as Htrue; [|congruence].
    apply existsb_exists. exists choice.
    split; [by apply list_elem_of_In | by apply bool_decide_eq_true].
Qed.

(** C6, what the code does.  The validator accepts an argument and an
    option whose default list holds an element outside [choices], because
    some choice occurs in the default; the parse of the empty token list
    then returns these defaults. *)
Theorem default_outside_choices_accepted :
  validateArguments [ChoicesExample.tags] = Returns tt
  /\ validateOptions [ChoicesExample.env] = Returns tt
  /\ validateConfig ChoicesExample.cli = Returns tt
  /\ ("z" ∈ defaultValues (DArray ["a"; "z"]))
  /\ ("z" ∉ ["a"; "b"])
  /\ parseRuntime ChoicesExample.cli []
     = Returns (mkInput {[ "tags" := JArray ["a"; "z"] ]}
                        {[ "env" := JArray ["z"; "b"] ]} []).
Proof.
  split; [vm_compute; reflexivity|].
  split; [vm_compute; reflexivity|].
  split; [vm_compute; reflexivity|].
  split; [simpl; apply list_elem_of_further, list_elem_of_here|].
  split; [|vm_compute; reflexivity].
  intros Hin. apply list_elem_of_In in Hin. simpl in Hin.
  destruct Hin as [?|[?|[]]]; discriminate.
Qed.

(** * Further properties of the code *)

(** ** The name normaliser *)

Lemma removeDashes_no_dash s : Str.hasChar Str.isDash (Str.removeDashes s) = false.
Proof.
  induction s as [|c s IH]; simpl; [done|].
  destruct (Str.isDash c) eqn:Hc; simpl; [done|]. by rewrite Hc.
Qed.

(** X1. A canonical key never holds a hyphen. *)
Theorem kebabToCamelCase_no_dash (token : string) :
  Str.hasChar Str.isDash (kebabToCamelCase token) = false.
Proof. apply removeDashes_no_dash. Qed.

Lemma trimEnd_dash s : Str.trimEnd (String "-" s) = String "-" (Str.trimEnd s).
Proof. simpl. by destruct (Str.trimEnd s). Qed.

(** X2. One more leading hyphen does not change the canonical key: the
    number of hyphens before a flag is not told apart. *)
Theorem kebabToCamelCase_leading_dash (s : string) :
  Str.trimStart s = s ->
  kebabToCamelCase (String "-" s) = kebabToCamelCase s.
Proof.
  intros Hs. unfold kebabToCamelCase, Str.trim.
  change (Str.trimStart (String "-" s)) with (String "-" s).
  by rewrite trimEnd_dash, Hs.
Qed.

Lemma kebabToCamelCase_leading_dash_witness :
  kebabToCamelCase "---output" = kebabToCamelCase "--output".
Proof. apply (kebabToCamelCase_leading_dash "--output"). reflexivity. Defined.

(** Character classes. *)
Lemma nameChar_cases c :
  nameChar c = true -> Str.isDash c = true \/ plainChar c = true.
Proof.
  unfold nameChar, plainChar. destruct (Str.isDash c); [by left|].
  rewrite orb_false_r. by right.
Qed.

Lemma nameChar_not_space c : nameChar c = true -> Str.isSpace c = false.
Proof. destruct c as [[] [] [] [] [] [] [] []]; vm_compute; congruence. Qed.

Lemma nameChar_not_terminator c : nameChar c = true -> Str.isLineTerminator c = false.
Proof. destruct c as [[] [] [] [] [] [] [] []]; vm_compute; congruence. Qed.

Lemma nameChar_toUpper c : nameChar c = true -> nameChar (Str.toUpper c) = true.
Proof. destruct c as [[] [] [] [] [] [] [] []]; vm_compute; congruence. Qed.

Lemma plainChar_not_dash c : plainChar c = true -> Str.isDash c = false.
Proof. destruct c as [[] [] [] [] [] [] [] []]; vm_compute; congruence. Qed.

Lemma plainChar_nameChar c : plainChar c = true -> nameChar c = true.
Proof.
  unfold nameChar, plainChar. intros ->. done.
Qed.

Lemma all_cons p c s : Str.all p (String c s) = true <-> p c = true /\ Str.all p s = true.
Proof. simpl. apply andb_true_iff. Qed.

Lemma trimStart_nameChar s : Str.all nameChar s = true -> Str.trimStart s = s.
Proof.
  destruct s as [|c s]; [done|]. intros [Hc _]%all_cons. simpl.
  by rewrite (nameChar_not_space c Hc).
Qed.

Lemma trimEnd_nameChar s : Str.all nameChar s = true -> Str.trimEnd s = s.
Proof.
  induction s as [|c s IH]; [done|]. intros [Hc Hs]%all_cons. simpl.
  rewrite (IH Hs), (nameChar_not_space c Hc). by destruct s.
Qed.

Lemma stripLeadingDashes_nameChar s :
  Str.all nameChar s = true -> Str.all nameChar (Str.stripLeadingDashes s) = true.
Proof.
  induction s as [|c s IH]; [done|]. intros Hall. simpl.
  destruct (Str.isDash c); [|done]. apply all_cons in Hall as [_ Hs]. by apply IH.
Qed.

Lemma upperAfterDash_nameChar s :
  Str.all nameChar s = true -> Str.all nameChar (Str.upperAfterDash s) = true.
Proof.
  assert (forall n s, String.length s <= n -> Str.all nameChar s = true ->
                      Str.all nameChar (Str.upperAfterDash s) = true) as Hgen;
    [|by apply (Hgen (String.length s))].
  clear s. induction n as [|n IH]; intros s Hlen Hall.
  - destruct s; [done | simpl in Hlen; lia].
  - destruct s as [|c s]; [done|].
    apply all_cons in Hall as [Hc Hs]. simpl in Hlen.
    cbn [Str.upperAfterDash]. destruct (Str.isDash c).
    + destruct s as [|d s]; [by apply all_cons|].
      apply all_cons in Hs as [Hd Hs']. simpl in Hlen.
      rewrite (nameChar_not_terminator d Hd).
      apply all_cons. split; [by apply nameChar_toUpper | apply IH; [lia | done]].
    + apply all_cons. split; [done|]. apply IH; [lia | done].
Qed.

Lemma removeDashes_plain s :
  Str.all nameChar s = true -> Str.all plainChar (Str.removeDashes s) = true.
Proof.
  induction s as [|c s IH]; [done|]. intros [Hc Hs]%all_cons. simpl.
  destruct (Str.isDash c) eqn:Hd; [by apply IH|].
  apply all_cons. split; [|by apply IH].
  by destruct (nameChar_cases c Hc) as [?|?]; [congruence|].
Qed.

Lemma kebabToCamelCase_plain s :
  Str.all nameChar s = true -> Str.all plainChar (kebabToCamelCase s) = true.
Proof.
  intros Hs. unfold kebabToCamelCase, Str.trim.
  rewrite (trimStart_nameChar s Hs), (trimEnd_nameChar s Hs).
  by apply removeDashes_plain, upperAfterDash_nameChar, stripLeadingDashes_nameChar.
Qed.

Lemma all_plain_nameChar s : Str.all plainChar s = true -> Str.all nameChar s = true.
Proof.
  induction s as [|c s IH]; [done|]. intros [Hc Hs]%all_cons.
  apply all_cons. split; [by apply plainChar_nameChar | by apply IH].
Qed.

Lemma upperAfterDash_plain s : Str.all plainChar s = true -> Str.upperAfterDash s = s.
Proof.
  induction s as [|c s IH]; [done|]. intros [Hc Hs]%all_cons.
  cbn [Str.upperAfterDash]. rewrite (plainChar_not_dash c Hc). by rewrite IH.
Qed.

Lemma removeDashes_plain_id s : Str.all plainChar s = true -> Str.removeDashes s = s.
Proof.
  induction s as [|c s IH]; [done|]. intros [Hc Hs]%all_cons.
  simpl. rewrite (plainChar_not_dash c Hc). by rewrite IH.
Qed.

Lemma kebabToCamelCase_plain_id s : Str.all plainChar s = true -> kebabToCamelCase s = s.
Proof.
  intros Hs. pose proof (all_plain_nameChar s Hs) as Hn.
  unfold kebabToCamelCase, Str.trim.
  rewrite (trimStart_nameChar s Hn), (trimEnd_nameChar s Hn).
  replace (Str.stripLeadingDashes s) with s.
  - by rewrite upperAfterDash_plain, removeDashes_plain_id.
  - destruct s as [|c s]; [done|]. apply all_cons in Hs as [Hc _].
    simpl. by rewrite (plainChar_not_dash c Hc).
Qed.

Lemma flagRegex_nameChar n : flagRegex n = true -> Str.all nameChar n = true.
Proof.
  destruct n as [|c r]; [done|]. simpl. intros [Hc Hr]%andb_true_iff.
  apply andb_true_iff. split; [|done]. unfold nameChar.
  apply orb_true_iff in Hc as [->| ->]; [done|]. by rewrite !orb_true_r.
Qed.

Lemma nameRegex_flagRegex n : nameRegex n = true -> flagRegex n = true.
Proof.
  destruct n as [|c r]; [done|]. simpl. intros [-> ->]%andb_true_iff. done.
Qed.

(** X3. On a name made of the characters of the name and flag grammars
    the canonical key holds letters, digits and underscores only, and
    normalising it again changes nothing. *)
Theorem kebabToCamelCase_idempotent (n : string) :
  Str.all nameChar n = true ->
  Str.all plainChar (kebabToCamelCase n) = true
  /\ kebabToCamelCase (kebabToCamelCase n) = kebabToCamelCase n.
Proof.
  intros Hn. split; [by apply kebabToCamelCase_plain|].
  by apply kebabToCamelCase_plain_id, kebabToCamelCase_plain.
Qed.

Lemma kebabToCamelCase_idempotent_witness :
  Str.all plainChar (kebabToCamelCase "--dry-run") = true
  /\ kebabToCamelCase (kebabToCamelCase "--dry-run") = kebabToCamelCase "--dry-run".
Proof. apply (kebabToCamelCase_idempotent "--dry-run"). reflexivity. Defined.

(** ** What a valid declaration guarantees *)

Lemma checkNameFormat_Returns n v u :
  checkNameFormat n v = Returns u <-> nameRegex n = true.
Proof.
  unfold checkNameFormat. destruct (nameRegex n), u; simpl; split; done.
Qed.

Lemma throwIf_Returns_iff c e : throwIf c e = Returns tt <-> c = false.
Proof. destruct c; simpl; split; done. Qed.

Lemma bind_unit_Returns (m k : Outcome unit) :
  (m ;;; k) = Returns tt <-> m = Returns tt /\ k = Returns tt.
Proof.
  destruct m as [[]| |]; simpl; split; try done; by intros [? ?].
Qed.

Lemma validateAliasesFrom_spec als seen :
  validateAliasesFrom seen als = Returns tt
  <-> Forall (fun a => nameRegex a = true) als
      /\ NoDup als
      /\ (forall a, a ∈ als -> a ∉ seen).
Proof.
  revert seen. induction als as [|a als IH]; intros seen; simpl.
  - split; [intros _|done]. split; [constructor|].
    split; [constructor|]. by intros a Ha%elem_of_nil.
  - rewrite !bind_unit_Returns, checkNameFormat_Returns, throwIf_Returns_iff, IH.
    rewrite bool_decide_eq_false, Forall_cons, NoDup_cons. split.
    + intros (Hre & Hseen & Hall & Hnd & Hfresh). split; [done|].
      split; [split; [|done]|].
      * intros Hin. apply (Hfresh a Hin). by apply elem_of_union_l, elem_of_singleton_2.
      * intros b [->|Hb]%elem_of_cons; [done|].
        intros Hs. apply (Hfresh b Hb). by apply elem_of_union_r.
    + intros ((Hre & Hall) & (Hnotin & Hnd) & Hfresh).
      split; [done|]. split; [apply Hfresh; left|].
      split; [done|]. split; [done|].
      intros b Hb [->%elem_of_singleton|Hs]%elem_of_union; [done|].
      apply (Hfresh b); [by right | done].
Qed.

(** X4. [validateAliases] accepts a list of aliases exactly when every
    alias matches the name grammar and no alias occurs twice. *)
Theorem validateAliases_spec (als : list string) :
  validateAliases als = Returns tt
  <-> Forall (fun a => nameRegex a = true) als /\ NoDup als.
Proof.
  unfold validateAliases. rewrite validateAliasesFrom_spec. split.
  - by intros (? & ? & _).
  - intros [? ?]. split; [done|]. split; [done|]. intros a _. apply not_elem_of_empty.
Qed.

Lemma checkDefaultChoices_spec variant n choices d :
  checkDefaultChoices variant n choices d = Returns tt
  <-> defaultMeetsChoices choices d.
Proof.
  unfold defaultMeetsChoices.
  destruct choices as [cs|], d as [dv|];
    try (split; [intros _ ? ? ? ?; discriminate | done]).
  destruct (hasDefault (Some dv)) eqn:Hd.
  - rewrite (checkDefaultChoices_passes variant n cs dv Hd). split.
    + intros Hex cs' dv' ? ? _. by simplify_eq.
    + intros H. by apply (H cs dv).
  - unfold checkDefaultChoices. rewrite Hd.
    split; [intros _ ? ? _ _ ?; discriminate | done].
Qed.

Lemma nameRegex_truthy n : nameRegex n = true -> truthyString n = true.
Proof. by destruct n. Qed.

Lemma flagRegex_truthy n : flagRegex n = true -> truthyString n = true.
Proof. by destruct n. Qed.

Lemma implb_false_iff (a b : bool) : negb a && b = false <-> (b = true -> a = true).
Proof. destruct a, b; simpl; split; try done. intros H. by discriminate H. Qed.

Lemma validateArgument_spec seen a :
  validateArgument seen a = Returns tt <-> (arg_name a ∉ seen) /\ argumentOk a.
Proof.
  unfold validateArgument, argumentOk.
  rewrite !bind_unit_Returns, !throwIf_Returns_iff, checkNameFormat_Returns,
    checkDefaultChoices_spec, bool_decide_eq_false, implb_false_iff.
  rewrite negb_false_iff. split.
  - intros (_ & Hre & Hseen & Hch & Hopt & Harr). repeat split; try done.
    intros Hd Hisarr. rewrite Hd, Hisarr in Harr.
    destruct (decide (arg_kind a = AVariadic)); [done|].
    by rewrite bool_decide_false in Harr.
  - intros (Hseen & Hre & Hch & Hopt & Harr). repeat split; try done.
    + by apply nameRegex_truthy.
    + destruct (hasDefault (arg_default a)); [|by rewrite andb_false_r].
      destruct (isArrayDefault (arg_default a)); [|by rewrite andb_false_r].
      by rewrite bool_decide_true by auto.
Qed.

Lemma validateArgumentsFrom_spec ars seen :
  validateArgumentsFrom seen ars = Returns tt
  <-> NoDup (arg_name <$> ars)
      /\ (forall a, a ∈ ars -> arg_name a ∉ seen)
      /\ Forall argumentOk ars.
Proof.
  revert seen. induction ars as [|a ars IH]; intros seen; simpl.
  - split; [intros _|done]. split; [constructor|].
    split; [by intros ? ?%elem_of_nil | constructor].
  - rewrite bind_unit_Returns, validateArgument_spec, IH.
    rewrite NoDup_cons, Forall_cons. split.
    + intros ((Hseen & Hok) & Hnd & Hfresh & Hall).
      split; [split; [|done]|split; [|done]].
      * intros (b & Heq & Hb)%list_elem_of_fmap.
        apply (Hfresh b Hb). rewrite <- Heq. by apply elem_of_union_l, elem_of_singleton_2.
      * intros b [->|Hb]%elem_of_cons; [done|].
        intros Hs. apply (Hfresh b Hb). by apply elem_of_union_r.
    + intros ((Hnotin & Hnd) & Hfresh & Hok & Hall).
      split; [split; [apply Hfresh; left | done]|].
      split; [done|]. split; [|done].
      intros b Hb [Heq%elem_of_singleton|Hs]%elem_of_union.
      * apply Hnotin. rewrite <- Heq. by apply list_elem_of_fmap_2.
      * apply (Hfresh b); [by right | done].
Qed.

(** X5. [validateArguments] accepts a list of arguments exactly when the
    names are pairwise different and every argument has a name of the name
    grammar, a default only if it is optional, a list as default only if it
    is variadic, and, when it has choices and a default, a choice that
    occurs in the default. *)
Theorem validateArguments_spec (ars : list CommandArgument) :
  validateArguments ars = Returns tt
  <-> NoDup (arg_name <$> ars) /\ Forall argumentOk ars.
Proof.
  unfold validateArguments. rewrite validateArgumentsFrom_spec. split.
  - by intros (? & _ & ?).
  - intros [? ?]. split; [done|]. split; [|done]. intros a _. apply not_elem_of_empty.
Qed.

Lemma validateOptionFormat_spec s variant :
  validateOptionFormat (Some s) variant = Returns tt
  <-> (truthyString s = true -> flagRegex s = true).
Proof.
  simpl. rewrite throwIf_Returns_iff.
  destruct (truthyString s), (flagRegex s); simpl; split; try done.
  intros H. by discriminate H.
Qed.

Lemma elem_of_optionNamesAfter seen o n :
  n ∈ optionNamesAfter seen o <-> n ∈ optionNamesOf o \/ n ∈ seen.
Proof.
  unfold optionNamesAfter, optionNamesOf.
  destruct (shortFlag o) as [s|]; [destruct (truthyString s)|];
    rewrite ?elem_of_union, ?elem_of_singleton, ?elem_of_cons, ?elem_of_nil;
    tauto.
Qed.

Lemma validateOption_spec seen o :
  validateOption seen o = Returns tt
  <-> (forall n, n ∈ optionNamesOf o -> n ∉ seen)
      /\ NoDup (optionNamesOf o)
      /\ optionOk o.
Proof.
  unfold validateOption, optionOk, optionNamesOf.
  rewrite !bind_unit_Returns, !throwIf_Returns_iff, validateOptionFormat_spec,
    bool_decide_eq_false, negb_false_iff.
  assert ((match opt_kind o with
           | OFlag => Returns tt
           | _ =>
               checkDefaultChoices FOption (longFlag o) (opt_choices o) (opt_default o) ;;;
               throwIf (negb (opt_optional o) && hasDefault (opt_default o))
                 (DefaultOnRequired FOption (longFlag o))
           end) = Returns tt
          <-> (opt_kind o <> OFlag ->
               defaultMeetsChoices (opt_choices o) (opt_default o)
               /\ (hasDefault (opt_default o) = true -> opt_optional o = true)))
    as ->.
  { destruct (opt_kind o); [split; [by intros _ ? | done]|..];
      rewrite bind_unit_Returns, throwIf_Returns_iff, checkDefaultChoices_spec,
        implb_false_iff; (split; [by intros ? _ | intros H; by apply H]). }
  destruct (shortFlag o) as [s|] eqn:Hs.
  - rewrite validateOptionFormat_spec. cbn [truthyShort from_option default id].
    destruct (truthyString s) eqn:Hts.
    + rewrite andb_true_l, bool_decide_eq_false, elem_of_union, elem_of_singleton.
      rewrite NoDup_cons, list_elem_of_singleton. split.
      * intros (Hl & Hlre & Hsre & Hlseen & Hsseen & Hkind).
        split.
        { intros n [->|[->|[]%elem_of_nil]%elem_of_cons]%elem_of_cons; tauto. }
        split; [split; [intros <-; tauto | apply NoDup_singleton]|].
        split; [auto|]. split; [|done]. intros s' ? _. simplify_eq. auto.
      * intros (Hfresh & [Hne _] & Hlre & Hsre & Hkind).
        split; [by apply flagRegex_truthy|]. split; [done|].
        split; [intros _; by apply (Hsre s)|].
        split; [apply Hfresh; left|]. split; [|done].
        intros [->|Hin]; [by apply Hne|].
        apply (Hfresh s); [right; left | done].
    + rewrite andb_false_l. split.
      * intros (Hl & Hlre & _ & Hlseen & _ & Hkind).
        split; [by intros n [->|[]%elem_of_nil]%elem_of_cons|].
        split; [apply NoDup_singleton|]. split; [auto|]. split; [|done].
        intros s' ? Hts'. simplify_eq. congruence.
      * intros (Hfresh & _ & Hlre & _ & Hkind).
        split; [by apply flagRegex_truthy|]. split; [done|].
        split; [done|]. split; [apply Hfresh; left|]. done.
  - cbn [truthyShort from_option validateOptionFormat]. rewrite andb_false_l. split.
    + intros (Hl & Hlre & _ & Hlseen & _ & Hkind).
      split; [by intros n [->|[]%elem_of_nil]%elem_of_cons|].
      split; [apply NoDup_singleton|]. split; [auto|]. split; [done|done].
    + intros (Hfresh & _ & Hlre & _ & Hkind).
      split; [by apply flagRegex_truthy|]. split; [done|].
      split; [done|]. split; [apply Hfresh; left|]. done.
Qed.

Lemma validateOptionsFrom_spec os seen :
  validateOptionsFrom seen os = Returns tt
  <-> NoDup (os ≫= optionNamesOf)
      /\ (forall n, n ∈ os ≫= optionNamesOf -> n ∉ seen)
      /\ Forall optionOk os.
Proof.
  revert seen. induction os as [|o os IH]; intros seen.
  - simpl. split; [intros _|done]. split; [constructor|].
    split; [by intros ? ?%elem_of_nil | constructor].
  - cbn [validateOptionsFrom]. rewrite bind_unit_Returns, validateOption_spec, IH.
    rewrite bind_cons, NoDup_app, Forall_cons. split.
    + intros ((Hseen & Hnd1 & Hok) & Hnd & Hfresh & Hall).
      split; [split; [done|split; [|done]]|split; [|done]].
      * intros n Hn Hn'. apply (Hfresh n Hn').
        apply elem_of_optionNamesAfter. by left.
      * intros n [Hn|Hn]%elem_of_app; [by apply Hseen|].
        intros Hs. apply (Hfresh n Hn). apply elem_of_optionNamesAfter. by right.
    + intros ((Hnd1 & Hdisj & Hnd) & Hfresh & Hok & Hall).
      split; [split; [|done]|].
      * intros n Hn. apply Hfresh, elem_of_app. by left.
      * split; [done|]. split; [|done].
        intros n Hn [Hn'|Hs]%elem_of_optionNamesAfter.
        -- by apply (Hdisj n Hn').
        -- apply (Hfresh n); [apply elem_of_app; by right | done].
Qed.

(** X6. [validateOptions] accepts a list of options exactly when all the
    long flags and the (non-empty) short flags, taken together in one name
    space, are pairwise different, every flag matches the flag grammar,
    and every value, inline or variadic option has a default only if it is
    optional and, when it has choices and a default, a choice that occurs in
    the default. *)
Theorem validateOptions_spec (os : list CommandOption) :
  validateOptions os = Returns tt
  <-> NoDup (os ≫= optionNamesOf) /\ Forall optionOk os.
Proof.
  unfold validateOptions. rewrite validateOptionsFrom_spec. split.
  - by intros (? & _ & ?).
  - intros [? ?]. split; [done|]. split; [|done]. intros a _. apply not_elem_of_empty.
Qed.

Lemma validateName_spec n : validateName n = Returns tt <-> nameRegex n = true.
Proof.
  unfold validateName.
  rewrite bind_unit_Returns, throwIf_Returns_iff, checkNameFormat_Returns, negb_false_iff.
  split; [by intros [_ ?] | intros H; split; [by apply nameRegex_truthy | done]].
Qed.

Lemma validateSubcommandsFrom_spec validate subs seen :
  validateSubcommandsFrom validate seen subs = Returns tt
  <-> NoDup (name <$> subs)
      /\ (forall c, c ∈ subs -> name c ∉ seen)
      /\ Forall (fun c => truthyString (name c) = true /\ validate c = Returns tt) subs.
Proof.
  revert seen. induction subs as [|c subs IH]; intros seen; simpl.
  - split; [intros _|done]. split; [constructor|].
    split; [by intros ? ?%elem_of_nil | constructor].
  - rewrite !bind_unit_Returns, !throwIf_Returns_iff, IH, negb_false_iff,
      bool_decide_eq_false, NoDup_cons, Forall_cons. split.
    + intros (Htr & Hseen & Hv & Hnd & Hfresh & Hall).
      split; [split; [|done]|split; [|done]].
      * intros (b & Heq & Hb)%list_elem_of_fmap.
        apply (Hfresh b Hb). rewrite <- Heq. by apply elem_of_union_l, elem_of_singleton_2.
      * intros b [->|Hb]%elem_of_cons; [done|].
        intros Hs. apply (Hfresh b Hb). by apply elem_of_union_r.
    + intros ((Hnotin & Hnd) & Hfresh & [Htr Hv] & Hall).
      split; [done|]. split; [apply Hfresh; left|]. split; [done|].
      split; [done|]. split; [|done].
      intros b Hb [Heq%elem_of_singleton|Hs]%elem_of_union.
      * apply Hnotin. rewrite <- Heq. by apply list_elem_of_fmap_2.
      * apply (Hfresh b); [by right | done].
Qed.

(** X7. [validateConfig] accepts a declaration exactly when its name
    matches the name grammar, its aliases, arguments and options are
    accepted by their validators, the names of its subcommands are pairwise
    different and every subcommand is itself accepted.  Aliases take no part
    in the uniqueness of subcommand names. *)
Theorem validateConfig_spec (config : Config) :
  validateConfig config = Returns tt
  <-> nameRegex (name config) = true
      /\ validateAliases (aliases config) = Returns tt
      /\ validateArguments (arguments config) = Returns tt
      /\ validateOptions (options config) = Returns tt
      /\ NoDup (name <$> subcommands config)
      /\ Forall (fun c => validateConfig c = Returns tt) (subcommands config).
Proof.
  destruct config as [n v hid als os ars hs subs].
  cbn [validateConfig name aliases arguments options subcommands].
  rewrite !bind_unit_Returns, validateName_spec, validateSubcommandsFrom_spec.
  split.
  - intros (Hn & Hal & Har & Hop & Hnd & _ & Hall). repeat split; try done.
    eapply Forall_impl; [exact Hall|]. by intros c [_ ?].
  - intros (Hn & Hal & Har & Hop & Hnd & Hall).
    do 5 (split; [done|]). split; [intros c _; apply not_elem_of_empty|].
    eapply Forall_impl; [exact Hall|]. intros c Hc. split; [|done].
    destruct c as [n' v' hid' als' os' ars' hs' subs'].
    cbn [validateConfig] in Hc. apply bind_unit_Returns in Hc as [Hname _].
    by apply nameRegex_truthy, validateName_spec.
Qed.

(** ** Declaring through the builder *)

Lemma validateConfig_parts config :
  validateConfig config = Returns tt ->
  validateName (name config) = Returns tt
  /\ validateAliases (aliases config) = Returns tt
  /\ validateArguments (arguments config) = Returns tt
  /\ validateOptions (options config) = Returns tt.
Proof.
  destruct config as [n v hid als os ars hs subs].
  cbn [validateConfig name aliases arguments options].
  rewrite !bind_unit_Returns. tauto.
Qed.

Lemma parseRuntime_Throws_of_invalid config tokens :
  validateConfig config <> Returns tt -> exists e, parseRuntime config tokens = Throws e.
Proof.
  intros Hv. pose proof (validateConfig_no_fuel config) as Hf.
  unfold parseRuntime, parseRuntimeFuel.
  destruct (validateConfig config) as [[]|e|]; [done| |done]. by exists e.
Qed.

(** X8. An option declared through the builder with a default but without
    [optional: true] makes every parse of the command fail: the builder
    fills in [optional: false] and the validator refuses a default on a
    required option. *)
Theorem builderOption_default_needs_optional
    (config : Config) (flag : string) (init : OptionInit) (tokens : list string) :
  oi_kind init <> Some OFlag ->
  hasDefault (oi_default init) = true ->
  oi_optional init <> Some true ->
  exists e, parseRuntime (builderOption config flag (Some init)) tokens = Throws e.
Proof.
  intros Hkind Hd Hopt. apply parseRuntime_Throws_of_invalid. intros Hv.
  apply validateConfig_parts in Hv as (_ & _ & _ & Hos).
  apply validateOptionsFrom_spec in Hos as (_ & _ & Hall).
  cbn [builderOption setOptions options] in Hall.
  rewrite Forall_app, Forall_singleton in Hall. destruct Hall as [_ Hnew].
  unfold optionOk in Hnew. destruct Hnew as (_ & _ & Hnf). simpl in Hnf.
  assert (default OValue (oi_kind init) <> OFlag) as Hk
    by (destruct (oi_kind init) as [[]|]; simpl; congruence).
  destruct (Hnf Hk) as [_ Ho].
  specialize (Ho Hd). destruct (oi_optional init) as [[]|]; simpl in Ho; congruence.
Qed.

Lemma builderOption_default_needs_optional_witness :
  exists e,
    parseRuntime
      (builderOption RequiredExample.flagOnly "--mode"
         (Some (mkOptionInit (Some OValue) None (Some (DString "development"))
                  (Some ["development"; "production"]) None)))
      ["--mode"; "production"]
    = Throws e.
Proof.
  apply builderOption_default_needs_optional; [discriminate | reflexivity | discriminate].
Defined.

(** X9. The same for a positional argument declared through the builder. *)
Theorem builderArgument_default_needs_optional
    (config : Config) (n : string) (init : ArgumentInit) (tokens : list string) :
  hasDefault (ai_default init) = true ->
  ai_optional init <> Some true ->
  exists e, parseRuntime (builderArgument config n (Some init)) tokens = Throws e.
Proof.
  intros Hd Hopt. apply parseRuntime_Throws_of_invalid. intros Hv.
  apply validateConfig_parts in Hv as (_ & _ & Har & _).
  apply validateArgumentsFrom_spec in Har as (_ & _ & Hall).
  cbn [builderArgument setArguments arguments] in Hall.
  rewrite Forall_app, Forall_singleton in Hall. destruct Hall as [_ Hnew].
  unfold argumentOk in Hnew. destruct Hnew as (_ & _ & Ho & _). simpl in Ho.
  specialize (Ho Hd). destruct (ai_optional init) as [[]|]; simpl in Ho; congruence.
Qed.

Lemma builderArgument_default_needs_optional_witness :
  exists e,
    parseRuntime
      (builderArgument RequiredExample.flagOnly "entry"
         (Some (mkArgumentInit None (Some (DString "main.ts")) None None)))
      []
    = Throws e.
Proof.
  apply builderArgument_default_needs_optional; [reflexivity | discriminate].
Defined.

(** ** [Command.parse] appends the built-in flags at every call *)










(** ** The first token *)

Lemma parseRuntime_cons config token rest :
  validateConfig config = Returns tt ->
  parseRuntime config (token :: rest)
  = (s <- scanLoop (S (length rest)) config (token :: rest) 0 0 emptyInput ;;
     match s with
     | ScanReturn input => Returns input
     | ScanDone input => postScan config input
     end).
Proof. intros Hv. unfold parseRuntime, parseRuntimeFuel. by rewrite Hv. Qed.

Lemma isOption_separator token : token = "--" -> isOption token = true.
Proof. by intros ->. Qed.

(** X11. An option-shaped first token, other than the separator, that no
    declared option answers to makes the parse throw the unknown-option
    error for that token. *)
Theorem unknown_option_first (config : Config) (token : string) (rest : list string) :
  validateConfig config = Returns tt ->
  token <> "--" ->
  isOption token = true ->
  List.find (matchesOption (kebabToCamelCase token)) (options config) = None ->
  parseRuntime config (token :: rest) = Throws (UnknownOption token).
Proof.
  intros Hv Hsep Hopt Hfind. rewrite parseRuntime_cons by done.
  cbn [scanLoop lookup list_lookup]. rewrite (bool_decide_false _ Hsep), Hopt.
  unfold parseCommandOption. by rewrite Hfind.
Qed.

Lemma unknown_option_first_witness :
  parseRuntime RequiredExample.flagOnly ["--help"] = Throws (UnknownOption "--help").
Proof.
  apply unknown_option_first; [reflexivity | discriminate | reflexivity | reflexivity].
Defined.

(** X12. A first token that is neither option-shaped nor a subcommand
    name makes the parse throw the unexpected-argument error for that token
    when the command declares no positional argument. *)
Theorem unexpected_argument_first (config : Config) (token : string) (rest : list string) :
  validateConfig config = Returns tt ->
  isOption token = false ->
  isSubcommand token (subcommands config) = false ->
  arguments config = [] ->
  parseRuntime config (token :: rest) = Throws (UnexpectedArgument (Some token)).
Proof.
  intros Hv Hopt Hsub Hargs. rewrite parseRuntime_cons by done.
  cbn [scanLoop lookup list_lookup].
  assert (token <> "--") as Hsep by (intros ->; discriminate Hopt).
  rewrite (bool_decide_false _ Hsep), Hopt, Hsub.
  unfold parseCommandArgument. by rewrite Hargs.
Qed.

Lemma unexpected_argument_first_witness :
  parseRuntime RequiredExample.flagOnly ["build"; "--verbose"]
  = Throws (UnexpectedArgument (Some "build")).
Proof. apply unexpected_argument_first; reflexivity. Defined.

Lemma postScan_setUnparsed config input l :
  postScan config (setUnparsed input l)
  = mapOutcome (fun r => setUnparsed r l) (postScan config input).
Proof.
  unfold postScan, mapOutcome, setUnparsed. simpl.
  destruct (postOptions _ _) as [os| |]; simpl; [|done..].
  by destruct (postArguments _ _) as [ars| |].
Qed.

Lemma parseRuntime_nil config :
  parseRuntime config [] = (validateConfig config ;;; postScan config emptyInput).
Proof. done. Qed.

Lemma parseRuntime_stops_first config token rest l :
  (validateConfig config = Returns tt ->
   scanLoop (S (length rest)) config (token :: rest) 0 0 emptyInput
   = Returns (ScanDone (setUnparsed emptyInput l))) ->
  parseRuntime config (token :: rest)
  = mapOutcome (fun r => setUnparsed r l) (parseRuntime config []).
Proof.
  intros Hscan. rewrite parseRuntime_nil. unfold parseRuntime, parseRuntimeFuel.
  destruct (validateConfig config) as [[]| |]; [|done..].
  cbn [bind length]. rewrite Hscan by done. cbn [bind].
  apply (postScan_setUnparsed config emptyInput l).
Qed.

Lemma scanLoop_separator_first config rest fuel :
  scanLoop (S fuel) config ("--" :: rest) 0 0 emptyInput
  = Returns (ScanDone (setUnparsed emptyInput rest)).
Proof. cbn [scanLoop lookup list_lookup]. by rewrite bool_decide_true. Qed.

Lemma scanLoop_subcommand_first config token rest fuel :
  isOption token = false ->
  isSubcommand token (subcommands config) = true ->
  scanLoop (S fuel) config (token :: rest) 0 0 emptyInput
  = Returns (ScanDone (setUnparsed emptyInput (token :: rest))).
Proof.
  intros Hopt Hsub. cbn [scanLoop lookup list_lookup].
  assert (token <> "--") as Hsep by (intros ->; discriminate Hopt).
  by rewrite (bool_decide_false _ Hsep), Hopt, Hsub.
Qed.

(** X13. Tokens that begin with the separator are not scanned: the parse
    answers as for the empty token list, with everything after the
    separator as [unparsed]. *)
Theorem separator_first (config : Config) (rest : list string) :
  parseRuntime config ("--" :: rest)
  = mapOutcome (fun r => setUnparsed r rest) (parseRuntime config []).
Proof.
  apply parseRuntime_stops_first. intros _.
  apply scanLoop_separator_first.
Qed.

(** X14. Tokens that begin with the name or an alias of a subcommand (a
    token that is not option-shaped) are not scanned either: the parse
    answers as for the empty token list, with all the tokens as [unparsed]. *)
Theorem subcommand_first (config : Config) (token : string) (rest : list string) :
  isOption token = false ->
  isSubcommand token (subcommands config) = true ->
  parseRuntime config (token :: rest)
  = mapOutcome (fun r => setUnparsed r (token :: rest)) (parseRuntime config []).
Proof.
  intros Hopt Hsub. apply parseRuntime_stops_first. intros _.
  by apply scanLoop_subcommand_first.
Qed.

Lemma subcommand_first_witness :
  parseRuntime RunnerExample.git ["c"; "-m"; "msg"]
  = mapOutcome (fun r => setUnparsed r ["c"; "-m"; "msg"]) (parseRuntime RunnerExample.git []).
Proof. apply subcommand_first; reflexivity. Defined.

(** ** What a returned result holds *)

Lemma parseCommandOption_key token tokens config p :
  parseCommandOption token tokens config = Returns p ->
  exists o, o ∈ options config /\ fst (entry p) = optionKey o.
Proof.
  unfold parseCommandOption.
  destruct (List.find _ _) as [o|] eqn:Hfind; [|done].
  destruct (optionValueOf _ _ _ _) as [[v|] n]; [|done].
  intros Hp. simplify_eq. exists o. split; [by eapply find_elem_of | done].
Qed.

Lemma parseCommandArgument_key tokens config argIndex p :
  parseCommandArgument tokens config argIndex = Returns p ->
  exists a, a ∈ arguments config /\ fst (entry p) = argumentKey a.
Proof.
  unfold parseCommandArgument.
  destruct (arguments config !! argIndex) as [a|] eqn:Ha; [|done].
  apply list_elem_of_lookup_2 in Ha.
  destruct (arg_kind a); intros Hp; simplify_eq; by exists a.
Qed.

Lemma declaredKeys_setOption config input o v :
  o ∈ options config -> declaredKeys config input ->
  declaredKeys config (setOption input (optionKey o) v).
Proof.
  intros Ho [Hos Hars]. split; [|done]. intros k. simpl.
  destruct (decide (optionKey o = k)) as [<-|Hne]; [by exists o|].
  rewrite lookup_insert_ne by done. apply Hos.
Qed.

Lemma declaredKeys_setArg config input a v :
  a ∈ arguments config -> declaredKeys config input ->
  declaredKeys config (setArg input (argumentKey a) v).
Proof.
  intros Ha [Hos Hars]. split; [done|]. intros k. simpl.
  destruct (decide (argumentKey a = k)) as [<-|Hne]; [by exists a|].
  rewrite lookup_insert_ne by done. apply Hars.
Qed.

Lemma scanLoop_declaredKeys config tokens fuel :
  forall tokenIndex argIndex input s,
    scanLoop fuel config tokens tokenIndex argIndex input = Returns s ->
    declaredKeys config input -> declaredKeys config (scanInput s).
Proof.
  induction fuel as [|fuel IH]; intros ti ai input s; simpl;
    destruct (tokens !! ti) as [token|]; try done;
    try (intros Hs Hk; by simplify_eq).
  case_bool_decide; [intros Hs Hk; by simplify_eq|].
  destruct (isOption token).
  - destruct (parseCommandOption _ _ _) as [p| |] eqn:Hp; simpl; [|done..].
    apply parseCommandOption_key in Hp as (o & Ho & ->).
    destruct (_ && _);
      [intros Hs Hk; simplify_eq; by apply declaredKeys_setOption|].
    destruct (_ && _);
      [intros Hs Hk; simplify_eq; by apply declaredKeys_setOption|].
    intros Hs Hk. eapply IH; [exact Hs|]. by apply declaredKeys_setOption.
  - destruct (isSubcommand _ _); [intros Hs Hk; by simplify_eq|].
    destruct (parseCommandArgument _ _ _) as [p| |] eqn:Hp; simpl; [|done..].
    apply parseCommandArgument_key in Hp as (a & Ha & ->).
    intros Hs Hk. eapply IH; [exact Hs|]. by apply declaredKeys_setArg.
Qed.

Lemma applyDefault_is_Some obj key d k :
  is_Some (applyDefault obj key d !! k) -> is_Some (obj !! k) \/ k = key.
Proof.
  unfold applyDefault. destruct (hasDefault d); [|by left].
  destruct (_ || _); [|by left].
  destruct (decide (key = k)) as [->|Hne]; [by right|].
  rewrite lookup_insert_ne by done. by left.
Qed.

Lemma postOptions_is_Some os m m' k :
  postOptions os m = Returns m' -> is_Some (m' !! k) ->
  is_Some (m !! k) \/ exists o, o ∈ os /\ k = optionKey o.
Proof.
  revert m. induction os as [|o os IH]; intros m; simpl.
  - intros Hm. simplify_eq. by left.
  - intros (m1 & H1 & Hrest)%bind_Returns Hk.
    destruct (IH m1 Hrest Hk) as [Hk1|(o' & Ho' & ->)].
    + apply postOption_Returns in H1 as [->|[_ ->]]; [by left|].
      apply applyDefault_is_Some in Hk1 as [? | ->]; [by left|].
      right. exists o. split; [apply list_elem_of_here | done].
    + right. exists o'. split; [by apply list_elem_of_further | done].
Qed.

Lemma postArguments_is_Some ars m m' k :
  postArguments ars m = Returns m' -> is_Some (m' !! k) ->
  is_Some (m !! k) \/ exists a, a ∈ ars /\ k = argumentKey a.
Proof.
  revert m. induction ars as [|a ars IH]; intros m; simpl.
  - intros Hm. simplify_eq. by left.
  - intros (m1 & H1 & Hrest)%bind_Returns Hk.
    destruct (IH m1 Hrest Hk) as [Hk1|(a' & Ha' & ->)].
    + apply postArgument_Returns in H1 as ->.
      apply applyDefault_is_Some in Hk1 as [? | ->]; [by left|].
      right. exists a. split; [apply list_elem_of_here | done].
    + right. exists a'. split; [by apply list_elem_of_further | done].
Qed.

Lemma postScan_declaredKeys config input r :
  postScan config input = Returns r ->
  declaredKeys config input -> declaredKeys config r.
Proof.
  unfold postScan. intros (os & Hos & (ars & Hars & Hr)%bind_Returns)%bind_Returns.
  simplify_eq. intros [Ho Ha]. split; simpl; intros k Hk.
  - destruct (postOptions_is_Some _ _ _ k Hos Hk) as [?|?]; [by apply Ho | done].
  - destruct (postArguments_is_Some _ _ _ k Hars Hk) as [?|?]; [by apply Ha | done].
Qed.

Lemma declaredKeys_empty config : declaredKeys config emptyInput.
Proof. split; intros k [v Hk]; simpl in Hk; by rewrite lookup_empty in Hk. Qed.

Lemma parseRuntime_Returns config tokens r :
  parseRuntime config tokens = Returns r ->
  exists s, scanLoop (length tokens) config tokens 0 0 emptyInput = Returns s
            /\ match s with
               | ScanReturn input => r = input
               | ScanDone input => postScan config input = Returns r
               end.
Proof.
  unfold parseRuntime, parseRuntimeFuel.
  intros (_ & _ & (s & Hs & Hr)%bind_Returns)%bind_Returns.
  exists s. split; [done|]. destruct s; [done | by simplify_eq].
Qed.

(** X15. In every result that [parseRuntime] returns, each key of the
    options mapping is the canonical key of a declared option and each key
    of the args mapping is the canonical key of a declared argument: the
    parser never invents a field. *)
Theorem parseRuntime_declaredKeys (config : Config) (tokens : list string) (r : ParseInput) :
  parseRuntime config tokens = Returns r -> declaredKeys config r.
Proof.
  intros (s & Hs & Hr)%parseRuntime_Returns.
  pose proof (scanLoop_declaredKeys _ _ _ _ _ _ _ Hs (declaredKeys_empty config)) as Hk.
  destruct s as [input|input]; simpl in Hk.
  - by eapply postScan_declaredKeys.
  - by subst.
Qed.

Lemma parseRuntime_declaredKeys_witness :
  declaredKeys VariadicExample.cli
    (mkInput {[ "targets" := JArray ["build"] ]} ∅ ["push"]).
Proof.
  apply (parseRuntime_declaredKeys VariadicExample.cli ["build"; "push"]).
  vm_compute. reflexivity.
Defined.

Lemma scanLoop_unparsed config tokens fuel :
  forall tokenIndex argIndex input s,
    scanLoop fuel config tokens tokenIndex argIndex input = Returns s ->
    unparsed input = [] ->
    match s with
    | ScanReturn input' => unparsed input' = []
    | ScanDone input' => unparsedOrigin config tokens (unparsed input')
    end.
Proof.
  induction fuel as [|fuel IH]; intros ti ai input s; simpl;
    destruct (tokens !! ti) as [token|] eqn:Htok; try done;
    try (intros Hs Hu; simplify_eq; by left).
  case_bool_decide as Hsep.
  { intros Hs Hu. simplify_eq. right. left. exists ti.
    by rewrite Nat.add_1_r. }
  destruct (isOption token) eqn:Hopt.
  - destruct (parseCommandOption _ _ _) as [p| |] eqn:Hp; simpl; [|done..].
    destruct (_ && _); [intros Hs Hu; by simplify_eq|].
    destruct (_ && _); [intros Hs Hu; by simplify_eq|].
    intros Hs Hu. by eapply IH.
  - destruct (isSubcommand _ _) eqn:Hsub.
    { intros Hs Hu. simplify_eq. right. right. by exists ti, token. }
    destruct (parseCommandArgument _ _ _) as [p| |] eqn:Hp; simpl; [|done..].
    intros Hs Hu. by eapply IH.
Qed.

(** X16. In every result that [parseRuntime] returns, [unparsed] is empty,
    or holds exactly the tokens after some separator token, or holds the
    tokens from some token on that names a subcommand of this level and is
    not option-shaped.  After a help or version short-circuit it is empty. *)
Theorem parseRuntime_unparsed (config : Config) (tokens : list string) (r : ParseInput) :
  parseRuntime config tokens = Returns r ->
  unparsedOrigin config tokens (unparsed r).
Proof.
  intros (s & Hs & Hr)%parseRuntime_Returns.
  pose proof (scanLoop_unparsed _ _ _ _ _ _ _ Hs eq_refl) as Hu.
  destruct s as [input|input].
  - by rewrite (postScan_unparsed _ _ _ Hr).
  - subst. by left.
Qed.

Lemma parseRuntime_unparsed_witness :
  unparsedOrigin VariadicExample.cli ["build"; "push"] ["push"].
Proof.
  apply (parseRuntime_unparsed VariadicExample.cli ["build"; "push"]
           (mkInput {[ "targets" := JArray ["build"] ]} ∅ ["push"])).
  vm_compute. reflexivity.
Defined.

(** ** Choices in a returned result *)

Lemma checkValues_Returns variant n choices vs :
  checkValues variant n choices vs = Returns tt -> Forall (fun s => s ∈ choices) vs.
Proof.
  induction vs as [|v vs IH]; simpl; [constructor|].
  case_bool_decide; [|done]. intros Hvs. constructor; [done | by apply IH].
Qed.

Lemma validateChoices_Returns variant value n choices :
  validateChoices variant value n choices = Returns tt -> inChoices choices value.
Proof.
  destruct value as [|[]|s|l]; cbn [validateChoices inChoices]; try done.
  - destruct (truthyString s) eqn:Hs.
    + intros Hc%checkValues_Returns. right. by rewrite Forall_singleton in Hc.
    + intros _. left. unfold truthyString in Hs.
      apply negb_false_iff in Hs. by apply bool_decide_eq_true in Hs.
  - apply checkValues_Returns.
Qed.

Lemma applyDefault_get obj key d k :
  jsGet (applyDefault obj key d) k = jsGet obj k
  \/ (key = k /\ hasDefault d = true
      /\ jsGet (applyDefault obj key d) k = optDefaultToJs d).
Proof.
  unfold applyDefault. destruct (hasDefault d) eqn:Hd; [|by left].
  destruct (_ || _); [|by left].
  destruct (decide (key = k)) as [->|Hne].
  - right. unfold jsGet. by rewrite lookup_insert_eq.
  - left. unfold jsGet. by rewrite lookup_insert_ne.
Qed.

Lemma isArgumentDefault_further a ars key v :
  isArgumentDefault ars key v -> isArgumentDefault (a :: ars) key v.
Proof.
  intros (a' & Hin & H). exists a'. split; [by apply list_elem_of_further | done].
Qed.

Lemma postArguments_later ars m m' k :
  postArguments ars m = Returns m' ->
  jsGet m' k = jsGet m k \/ isArgumentDefault ars k (jsGet m' k).
Proof.
  revert m. induction ars as [|a ars IH]; intros m; simpl.
  - intros Hm. simplify_eq. by left.
  - intros (m1 & H1 & Hrest)%bind_Returns.
    apply postArgument_Returns in H1 as ->.
    destruct (IH _ Hrest) as [Heq|Hdef]; [|right; by apply isArgumentDefault_further].
    rewrite Heq.
    destruct (applyDefault_get m (argumentKey a) (arg_default a) k)
      as [?|(Hk & Hd & Hv)]; [by left|].
    right. exists a. split; [apply list_elem_of_here | done].
Qed.

Lemma postArgument_checked a m m1 cs :
  postArgument a m = Returns m1 -> arg_choices a = Some cs ->
  inChoices cs (jsGet m (argumentKey a)).
Proof.
  unfold postArgument. fold (argumentKey a). intros (_ & _ & H)%bind_Returns Hcs.
  rewrite Hcs in H. apply bind_Returns in H as ([] & Hc & _).
  by apply validateChoices_Returns in Hc.
Qed.

Lemma postArguments_choices ars m m' a cs :
  postArguments ars m = Returns m' ->
  a ∈ ars -> arg_choices a = Some cs ->
  inChoices cs (jsGet m' (argumentKey a))
  \/ isArgumentDefault ars (argumentKey a) (jsGet m' (argumentKey a)).
Proof.
  revert m. induction ars as [|a0 ars IH]; intros m Hpost Hin Hcs;
    [by apply elem_of_nil in Hin|].
  simpl in Hpost. apply bind_Returns in Hpost as (m1 & H1 & Hrest).
  apply elem_of_cons in Hin as [<-|Hin].
  - pose proof (postArgument_checked _ _ _ _ H1 Hcs) as Hchecked.
    apply postArgument_Returns in H1 as ->.
    destruct (postArguments_later _ _ _ (argumentKey a) Hrest) as [Heq|Hdef];
      [|right; by apply isArgumentDefault_further].
    rewrite Heq.
    destruct (applyDefault_get m (argumentKey a) (arg_default a) (argumentKey a))
      as [->|(_ & Hd & Hv)]; [by left|].
    right. exists a. split; [apply list_elem_of_here | done].
  - destruct (IH m1 Hrest Hin Hcs) as [?|?]; [by left|].
    right. by apply isArgumentDefault_further.
Qed.

Lemma scanLoop_no_short_circuit config tokens fuel :
  Forall (fun t => shortCircuitToken config t = false) tokens ->
  forall tokenIndex argIndex input input',
    scanLoop fuel config tokens tokenIndex argIndex input <> Returns (ScanReturn input').
Proof.
  intros Hall.
  induction fuel as [|fuel IH]; intros ti ai input input'; simpl;
    destruct (tokens !! ti) as [token|] eqn:Htok; try done.
  case_bool_decide; [done|].
  assert (shortCircuitToken config token = false) as Hsc.
  { rewrite Forall_forall in Hall. apply Hall. by eapply list_elem_of_lookup_2. }
  unfold shortCircuitToken in Hsc. apply orb_false_elim in Hsc as [Hv Hh].
  destruct (isOption token).
  - destruct (parseCommandOption _ _ _) as [p| |]; simpl; [|done..].
    rewrite Hv, Hh. apply IH.
  - destruct (isSubcommand _ _); [done|].
    destruct (parseCommandArgument _ _ _) as [p| |]; simpl; [|done..]. apply IH.
Qed.

Lemma parseRuntime_Returns_postScan config tokens r :
  Forall (fun t => shortCircuitToken config t = false) tokens ->
  parseRuntime config tokens = Returns r ->
  exists input, postScan config input = Returns r.
Proof.
  intros Hall (s & Hs & Hr)%parseRuntime_Returns.
  destruct s as [input|input]; [by exists input|].
  by destruct (scanLoop_no_short_circuit config tokens _ Hall _ _ _ _ Hs).
Qed.

(** X17. When no token short-circuits on help or version, a returned
    result holds, under the key of every positional argument that declares
    choices, a value whose elements are all among these choices (or no
    value, or the empty string), unless that value is the default of an
    argument with this key: a default is stored after the check and is not
    checked. *)
Theorem argument_choices_enforced
    (config : Config) (tokens : list string) (r : ParseInput)
    (a : CommandArgument) (cs : list string) :
  Forall (fun t => shortCircuitToken config t = false) tokens ->
  parseRuntime config tokens = Returns r ->
  a ∈ arguments config ->
  arg_choices a = Some cs ->
  inChoices cs (jsGet (args r) (argumentKey a))
  \/ isArgumentDefault (arguments config) (argumentKey a) (jsGet (args r) (argumentKey a)).
Proof.
  intros Hall Hr Hin Hcs.
  destruct (parseRuntime_Returns_postScan _ _ _ Hall Hr) as [input Hpost].
  apply postScan_args in Hpost. by eapply postArguments_choices.
Qed.

Lemma argument_choices_enforced_witness :
  inChoices ["low"; "high"]
    (jsGet (args (mkInput {[ "level" := JString "high" ]} {[ "mode" := JString "dev" ]} []))
       (argumentKey EnforcedExample.level))
  \/ isArgumentDefault (arguments EnforcedExample.cli) (argumentKey EnforcedExample.level)
       (jsGet (args (mkInput {[ "level" := JString "high" ]} {[ "mode" := JString "dev" ]} []))
          (argumentKey EnforcedExample.level)).
Proof.
  apply (argument_choices_enforced EnforcedExample.cli ["high"; "-m"; "dev"]).
  - repeat (apply Forall_cons_2; [reflexivity|]). apply Forall_nil_2.
  - vm_compute. reflexivity.
  - apply list_elem_of_here.
  - reflexivity.
Defined.

Lemma isOptionDefault_further o os key v :
  isOptionDefault os key v -> isOptionDefault (o :: os) key v.
Proof.
  intros (o' & Hin & H). exists o'. split; [by apply list_elem_of_further | done].
Qed.

Lemma postOptions_later os m m' k :
  postOptions os m = Returns m' ->
  jsGet m' k = jsGet m k \/ isOptionDefault os k (jsGet m' k).
Proof.
  revert m. induction os as [|o os IH]; intros m; simpl.
  - intros Hm. simplify_eq. by left.
  - intros (m1 & H1 & Hrest)%bind_Returns.
    destruct (IH _ Hrest) as [Heq|Hdef]; [|right; by apply isOptionDefault_further].
    rewrite Heq.
    apply postOption_Returns in H1 as [->|[Hk ->]]; [by left|].
    destruct (applyDefault_get m (optionKey o) (opt_default o) k)
      as [?|(Hkey & Hd & Hv)]; [by left|].
    right. exists o. split; [apply list_elem_of_here | done].
Qed.

Lemma postOption_checked o m m1 cs :
  postOption o m = Returns m1 -> opt_kind o <> OFlag -> opt_choices o = Some cs ->
  isBoolean (jsGet m (optionKey o)) = true \/ inChoices cs (jsGet m (optionKey o)).
Proof.
  unfold postOption. fold (optionKey o). intros Hpost Hk Hcs. rewrite Hcs in Hpost.
  destruct (opt_kind o); [done|..];
    (apply bind_Returns in Hpost as (_ & _ & Hpost);
     apply bind_Returns in Hpost as ([] & Hc & _);
     destruct (isBoolean (jsGet m (optionKey o))); [by left|];
     right; by apply validateChoices_Returns in Hc).
Qed.

Lemma postOptions_choices os m m' o cs :
  postOptions os m = Returns m' ->
  o ∈ os -> opt_kind o <> OFlag -> opt_choices o = Some cs ->
  isBoolean (jsGet m' (optionKey o)) = true
  \/ inChoices cs (jsGet m' (optionKey o))
  \/ isOptionDefault os (optionKey o) (jsGet m' (optionKey o)).
Proof.
  revert m. induction os as [|o0 os IH]; intros m Hpost Hin Hk Hcs;
    [by apply elem_of_nil in Hin|].
  simpl in Hpost. apply bind_Returns in Hpost as (m1 & H1 & Hrest).
  apply elem_of_cons in Hin as [<-|Hin].
  - pose proof (postOption_checked _ _ _ _ H1 Hk Hcs) as Hchecked.
    apply postOption_Returns in H1 as [->|[_ ->]].
    + destruct (postOptions_later _ _ _ (optionKey o) Hrest) as [->|Hdef];
        [tauto | right; right; by apply isOptionDefault_further].
    + destruct (postOptions_later _ _ _ (optionKey o) Hrest) as [Heq|Hdef];
        [|right; right; by apply isOptionDefault_further].
      rewrite Heq.
      destruct (applyDefault_get m (optionKey o) (opt_default o) (optionKey o))
        as [->|(_ & Hd & Hv)]; [tauto|].
      right; right. exists o. split; [apply list_elem_of_here | done].
  - destruct (IH m1 Hrest Hin Hk Hcs) as [?|[?|?]]; [tauto..|].
    right; right. by apply isOptionDefault_further.
Qed.

Lemma postScan_opts config input r :
  postScan config input = Returns r ->
  postOptions (options config) (opts input) = Returns (opts r).
Proof.
  unfold postScan. intros (os & Hos & (ars & _ & Hr)%bind_Returns)%bind_Returns.
  by simplify_eq.
Qed.

(** X18. When no token short-circuits on help or version, a returned
    result holds, under the key of every value, inline or variadic option
    that declares choices, a value whose elements are all among these
    choices (or no value, or the empty string), unless that value is a
    boolean, which the check skips, or the default of an option with this
    key, which is stored after the check. *)
Theorem option_choices_enforced
    (config : Config) (tokens : list string) (r : ParseInput)
    (o : CommandOption) (cs : list string) :
  Forall (fun t => shortCircuitToken config t = false) tokens ->
  parseRuntime config tokens = Returns r ->
  o ∈ options config ->
  opt_kind o <> OFlag ->
  opt_choices o = Some cs ->
  isBoolean (jsGet (opts r) (optionKey o)) = true
  \/ inChoices cs (jsGet (opts r) (optionKey o))
  \/ isOptionDefault (options config) (optionKey o) (jsGet (opts r) (optionKey o)).
Proof.
  intros Hall Hr Hin Hk Hcs.
  destruct (parseRuntime_Returns_postScan _ _ _ Hall Hr) as [input Hpost].
  apply postScan_opts in Hpost. by eapply postOptions_choices.
Qed.

Lemma option_choices_enforced_witness :
  isBoolean
    (jsGet (opts (mkInput {[ "level" := JString "high" ]} {[ "mode" := JString "dev" ]} []))
       (optionKey EnforcedExample.mode)) = true
  \/ inChoices ["dev"; "prod"]
       (jsGet (opts (mkInput {[ "level" := JString "high" ]} {[ "mode" := JString "dev" ]} []))
          (optionKey EnforcedExample.mode))
  \/ isOptionDefault (options EnforcedExample.cli) (optionKey EnforcedExample.mode)
       (jsGet (opts (mkInput {[ "level" := JString "high" ]} {[ "mode" := JString "dev" ]} []))
          (optionKey EnforcedExample.mode)).
Proof.
  apply (option_choices_enforced EnforcedExample.cli ["high"; "-m"; "dev"]).
  - repeat (apply Forall_cons_2; [reflexivity|]). apply Forall_nil_2.
  - vm_compute. reflexivity.
  - apply list_elem_of_here.
  - discriminate.
  - reflexivity.
Defined.

(** ** The runner: what it keeps and where it dispatches *)









(** ** The option matcher *)

Lemma prefix_app k post : String.prefix k (String.append k post) = true.
Proof.
  induction k as [|c k IH]; simpl; [by destruct post|].
  destruct (Ascii.ascii_dec c c); [exact IH | done].
Qed.

Lemma includes_unfold s sub :
  Str.includes s sub
  = if String.prefix sub s then true
    else match s with
         | EmptyString => false
         | String _ s' => Str.includes s' sub
         end.
Proof. by destruct s. Qed.

Lemma includes_app pre k post :
  Str.includes (String.append pre (String.append k post)) k = true.
Proof.
  induction pre as [|c pre IH].
  - change (String.append "" (String.append k post)) with (String.append k post).
    by rewrite includes_unfold, prefix_app.
  - change (String.append (String c pre) (String.append k post))
      with (String c (String.append pre (String.append k post))).
    rewrite includes_unfold, IH. by destruct (String.prefix _ _).
Qed.

(** X22. Matching is by containment: an option with a long flag answers
    to every token whose normalised form holds, anywhere, the option's
    canonical key followed by an equals sign. *)
Theorem matchesOption_contains (o : CommandOption) (pre post : string) :
  truthyString (longFlag o) = true ->
  matchesOption
    (String.append pre (String.append (String.append (optionKey o) "=") post)) o
  = true.
Proof.
  intros Hl. unfold matchesOption, optionKey. rewrite Hl.
  by rewrite includes_app, orb_true_r.
Qed.

Lemma matchesOption_contains_witness :
  matchesOption
    (String.append "x"
       (String.append (String.append (optionKey InlineExample.output) "=") "5"))
    InlineExample.output
  = true.
Proof. apply matchesOption_contains. reflexivity. Defined.

Lemma split_pieces (p sep : ascii -> bool) s :
  Str.hasChar p s = false ->
  Forall (fun piece => Str.hasChar p piece = false) (Str.split sep s).
Proof.
  induction s as [|c s IH]; simpl.
  - intros _. by apply Forall_singleton.
  - intros [Hc Hs]%orb_false_elim. specialize (IH Hs).
    destruct (sep c); [by constructor|].
    destruct (Str.split sep s) as [|h t]; [apply Forall_singleton; simpl; by rewrite Hc|].
    apply Forall_cons in IH as [Hh Ht]. constructor; [|done]. simpl. by rewrite Hc, Hh.
Qed.

Lemma split_no_separator sep s :
  Forall (fun piece => Str.hasChar sep piece = false) (Str.split sep s).
Proof.
  induction s as [|c s IH]; simpl; [by apply Forall_singleton|].
  destruct (sep c) eqn:Hc; [by constructor|].
  destruct (Str.split sep s) as [|h t]; [apply Forall_singleton; simpl; by rewrite Hc|].
  apply Forall_cons in IH as [Hh Ht]. constructor; [|done]. simpl. by rewrite Hc, Hh.
Qed.

Lemma split_second sep s :
  Str.hasChar sep s = true -> exists v, Str.split sep s !! 1 = Some v.
Proof.
  induction s as [|c s IH]; simpl; [done|].
  destruct (sep c) eqn:Hc; simpl.
  - intros _. destruct s; simpl; [by eexists|].
    destruct (sep a); [by eexists|].
    destruct (Str.split sep s); by eexists.
  - intros Hs. destruct (IH Hs) as [v Hv].
    destruct (Str.split sep s) as [|h t]; [done|]. by exists v.
Qed.

(** X23. The value that an inline option yields is always a string, and
    this string holds neither a hyphen nor an equals sign: it is a piece of
    the normalised token, cut at the equals signs. *)
Theorem inline_value_shape (config : Config) (o : CommandOption)
    (token : string) (tokens : list string) (p : Parsed) :
  List.find (matchesOption (kebabToCamelCase token)) (options config) = Some o ->
  opt_kind o = OInline ->
  parseCommandOption token tokens config = Returns p ->
  exists v, entry p = (optionKey o, JString v)
            /\ consumed p = 1
            /\ Str.hasChar Str.isDash v = false
            /\ Str.hasChar Str.isEquals v = false.
Proof.
  intros Hfind Hkind. unfold parseCommandOption, optionValueOf.
  rewrite Hfind, Hkind.
  destruct (isInlineOption (kebabToCamelCase token)) eqn:Hinline; [|done].
  destruct (split_second Str.isEquals _ Hinline) as [v Hv]. rewrite Hv.
  intros Hp. simplify_eq. exists v. repeat split.
  - pose proof (split_pieces Str.isDash Str.isEquals (kebabToCamelCase token)
                  (removeDashes_no_dash _)) as Hall.
    rewrite Forall_forall in Hall. apply Hall. by eapply list_elem_of_lookup_2.
  - pose proof (split_no_separator Str.isEquals (kebabToCamelCase token)) as Hall.
    rewrite Forall_forall in Hall. apply Hall. by eapply list_elem_of_lookup_2.
Qed.

Lemma inline_value_shape_witness :
  exists v, entry (mkParsed ("output", JString "myDir") 1)
            = (optionKey InlineExample.output, JString v)
            /\ consumed (mkParsed ("output", JString "myDir") 1) = 1
            /\ Str.hasChar Str.isDash v = false
            /\ Str.hasChar Str.isEquals v = false.
Proof.
  apply (inline_value_shape InlineExample.cli InlineExample.output
           "--output=my-dir" ["--output=my-dir"]); reflexivity.
Defined.

(** X24. A value option takes the token that follows it as it is, whatever
    its shape: in a declaration none of whose canonical keys names a member
    of [Object.prototype], for two tokens, a flag that a value option
    answers to and any second token, the scan stores the second token under
    the option's key and reads nothing else in it, be it a flag, the
    separator, a help flag or a subcommand name. *)
Theorem value_option_takes_next (config : Config) (o : CommandOption)
    (token value : string) :
  ownKeysOnly config = true ->
  validateConfig config = Returns tt ->
  isFlag token = true ->
  token <> "--" ->
  shortCircuitToken config token = false ->
  List.find (matchesOption (kebabToCamelCase token)) (options config) = Some o ->
  opt_kind o = OValue ->
  parseRuntime config [token; value]
  = postScan config (mkInput ∅ {[ optionKey o := JString value ]} []).
Proof.
  intros _ Hv Hflag Hsep Hsc Hfind Hkind. rewrite parseRuntime_cons by done.
  cbn [length scanLoop lookup list_lookup].
  rewrite (bool_decide_false _ Hsep). unfold isOption. rewrite Hflag. cbn [orb].
  unfold parseCommandOption, optionValueOf. rewrite Hfind, Hkind, Hflag.
  cbn [drop indexOf]. rewrite bool_decide_true by done.
  cbn [bind entry fst snd consumed elementAt Z.add Z.to_nat Pos.to_nat
       Pos.iter_op Nat.add lookup list_lookup].
  unfold shortCircuitToken in Hsc. apply orb_false_elim in Hsc as [-> ->].
  done.
Qed.

Lemma value_option_takes_next_witness :
  parseRuntime ValueExample.cli ["--output"; "--help"]
  = postScan ValueExample.cli (mkInput ∅ {[ optionKey ValueExample.output := JString "--help" ]} []).
Proof.
  apply (value_option_takes_next ValueExample.cli ValueExample.output "--output" "--help");
    [reflexivity | reflexivity | reflexivity | discriminate | reflexivity
    | reflexivity | reflexivity].
Defined.

(** ** Help formatting *)

Lemma startsWithDash_append a b :
  Str.startsWithDash a = true -> Str.startsWithDash (String.append a b) = true.
Proof. by destruct a. Qed.

(** X25. The flag that the help text prints for an option always begins
    with a hyphen, and a flag that is declared with its hyphens is printed
    as declared unless the option is inline. *)
Theorem formatOptionFlag_dash (flag : string) (kind : CommandOptionKind) (optional : bool) :
  Str.startsWithDash (formatOptionFlag flag kind optional) = true
  /\ (Str.startsWithDash flag = true -> kind <> OInline ->
      formatOptionFlag flag kind optional = flag).
Proof.
  unfold formatOptionFlag. split.
  - assert (Str.startsWithDash
              (if Str.startsWithDash flag then flag
               else if Nat.eqb (String.length flag) 1 then String.append "-" flag
                    else String.append dashDash flag) = true) as Hn.
    { destruct (Str.startsWithDash flag) eqn:Hf; [done|]. by destruct (Nat.eqb _ _). }
    destruct kind; try done.
    destruct optional; by apply startsWithDash_append.
  - intros Hf Hk. rewrite Hf. by destruct kind.
Qed.
